(** * Bitcoin 0.16 [primitives/transaction.h]: transaction data model and
      the dual-mode (legacy / witness-extended) transaction codec.

    The header is embedded shallowly: fixed-width integers are [Z] with their
    wrap-around written out, byte strings are [list byte], the byte stream is
    a record read from the front and written at the back, reads run in a
    small exception monad over the stream, writes are stream transformers. *)

From Stdlib Require Import String Ascii ZArith List Bool Lia Strings.Byte.
Import ListNotations.
Open Scope Z_scope.

(** ** Bytes and fixed-width little-endian integers *)

Definition Z_of_byte (b : byte) : Z := Z.of_N (Byte.to_N b).

Definition byte_of_Z (z : Z) : byte :=
  match Byte.of_N (Z.to_N (z mod 256)) with
  | Some b => b
  | None => x00
  end.

(** The [w] low-order bytes of [z], least significant first (the memory image
    of [htole16/32/64]; a value outside the width wraps around). *)
Fixpoint le_bytes (w : nat) (z : Z) : list byte :=
  match w with
  | O => []
  | S w' => byte_of_Z z :: le_bytes w' (Z.shiftr z 8)
  end.

Fixpoint le_value (bs : list byte) : Z :=
  match bs with
  | [] => 0
  | b :: r => Z_of_byte b + 256 * le_value r
  end.

(** Conversion of an unsigned [w]-byte image to the signed type of the same
    width, as the cast of [ser_readdata32] to [int32_t] does. *)
Definition to_signed (bits : Z) (u : Z) : Z :=
  if u <? 2 ^ (bits - 1) then u else u - 2 ^ bits.

(** ** The stream collaborator

    [Stream] is a template parameter of the codec; it is used through
    [GetVersion()], [read] and [write] only. *)

Record Stream := mkStream {
  vch : list byte;          (* bytes not yet read, oldest first *)
  GetVersion : Z            (* int nVersion of the stream *)
}.

Definition set_vch (s : Stream) (bs : list byte) : Stream :=
  {| vch := bs; GetVersion := GetVersion s |}.

Inductive exn := ios_base_failure (what : string).

(** The outcome of a read as a value: what was read and the stream after it,
    or the exception and the stream where the failing read found it.  What
    an exception leaves in a target that was being filled in place is
    followed separately, in [UnserializeTransaction_in_place] below. *)
Inductive Result (A : Type) :=
| Ok (a : A) (s : Stream)
| Throw (e : exn) (s : Stream).
Arguments Ok {A} a s.
Arguments Throw {A} e s.

Definition M (A : Type) := Stream -> Result A.

Definition ret {A} (a : A) : M A := fun s => Ok a s.
Definition throw {A} (e : exn) : M A := fun s => Throw e s.
Definition bind {A B} (m : M A) (k : A -> M B) : M B :=
  fun s => match m s with
           | Ok a s' => k a s'
           | Throw e s' => Throw e s'
           end.

Notation "x <- m ;; k" := (bind m (fun x => k))
  (at level 61, m at next level, right associativity).
Notation "' p <- m ;; k" := (bind m (fun x => let 'p := x in k))
  (at level 61, p pattern, m at next level, right associativity).

(** [s.write(p, n)]: appends at the end, never fails. *)
Definition write (bs : list byte) (s : Stream) : Stream :=
  set_vch s (vch s ++ bs).

Definition end_of_data : exn :=
  ios_base_failure "CDataStream::read(): end of data".

(** [s.read(p, n)]: takes [k] bytes from the front, or fails without
    consuming anything. *)
Definition read (k : nat) : M (list byte) :=
  fun s => if (length (vch s) <? k)%nat
           then Throw end_of_data s
           else Ok (firstn k (vch s)) (set_vch s (skipn k (vch s))).

(** Modelled from the spec: the primitive readers and writers of
    [serialize.h], which is not among the sources.  Scalars are
    fixed-width little-endian (spec section 6). *)
Definition ser_writedata8 (x : Z) : Stream -> Stream := write (le_bytes 1 x).
Definition ser_writedata16 (x : Z) : Stream -> Stream := write (le_bytes 2 x).
Definition ser_writedata32 (x : Z) : Stream -> Stream := write (le_bytes 4 x).
Definition ser_writedata64 (x : Z) : Stream -> Stream := write (le_bytes 8 x).

Definition ser_readdata8 : M Z := bs <- read 1 ;; ret (le_value bs).
Definition ser_readdata16 : M Z := bs <- read 2 ;; ret (le_value bs).
Definition ser_readdata32 : M Z := bs <- read 4 ;; ret (le_value bs).
Definition ser_readdata64 : M Z := bs <- read 8 ;; ret (le_value bs).

(** [s << int32_t], [s << uint32_t], [s << int64_t], [s << unsigned char]
    and their readers; the reader overwrites its target. *)
Definition Serialize_int32 (a : Z) := ser_writedata32 a.
Definition Serialize_uint32 (a : Z) := ser_writedata32 a.
Definition Serialize_int64 (a : Z) := ser_writedata64 a.
Definition Serialize_uchar (a : Z) := ser_writedata8 a.

Definition Unserialize_int32 (a : Z) : M Z :=
  u <- ser_readdata32 ;; ret (to_signed 32 u).
Definition Unserialize_uint32 (a : Z) : M Z := ser_readdata32.
Definition Unserialize_int64 (a : Z) : M Z :=
  u <- ser_readdata64 ;; ret (to_signed 64 u).
Definition Unserialize_uchar (a : Z) : M Z := ser_readdata8.

(** Modelled from the spec: the length prefix of every "length-prefixed"
    sequence (spec sections 4.3 and 6) is the compact size of [serialize.h],
    one byte below 253 and a marker byte followed by 2, 4 or 8 bytes above;
    the reader rejects a prefix that is not the shortest one and a size above
    [MAX_SIZE] (the "malformed length prefixes" of spec section 7). *)
Definition MAX_SIZE : Z := 0x02000000.

Definition WriteCompactSize (nSize : Z) (os : Stream) : Stream :=
  if nSize <? 253 then ser_writedata8 nSize os
  else if nSize <=? 0xFFFF then ser_writedata16 nSize (ser_writedata8 253 os)
  else if nSize <=? 0xFFFFFFFF then ser_writedata32 nSize (ser_writedata8 254 os)
  else ser_writedata64 nSize (ser_writedata8 255 os).

Definition non_canonical : exn :=
  ios_base_failure "non-canonical ReadCompactSize()".
Definition size_too_large : exn :=
  ios_base_failure "ReadCompactSize(): size too large".

Definition ReadCompactSize : M Z :=
  chSize <- ser_readdata8 ;;
  nSizeRet <-
    (if chSize <? 253 then ret chSize
     else if chSize =? 253 then
       n <- ser_readdata16 ;;
       if n <? 253 then throw non_canonical else ret n
     else if chSize =? 254 then
       n <- ser_readdata32 ;;
       if n <? 0x10000 then throw non_canonical else ret n
     else
       n <- ser_readdata64 ;;
       if n <? 0x100000000 then throw non_canonical else ret n) ;;
  if nSizeRet >? MAX_SIZE then throw size_too_large else ret nSizeRet.

(** Modelled from the spec: [std::vector<T>] is written as its compact size
    followed by its elements in order; the reader clears the target, reads
    the size, and reads each element into a default-constructed [T]
    ([serialize.h], not among the sources). *)
Section Vector.
Context {T : Type}.
Variable Serialize_T : T -> Stream -> Stream.
Variable T_default : T.
Variable Unserialize_T : T -> M T.

Definition Serialize_vector (v : list T) (os : Stream) : Stream :=
  fold_left (fun os x => Serialize_T x os) v
            (WriteCompactSize (Z.of_nat (length v)) os).

Fixpoint Unserialize_elements (k : nat) : M (list T) :=
  match k with
  | O => ret []
  | S k' =>
      x <- Unserialize_T T_default ;;
      r <- Unserialize_elements k' ;;
      ret (x :: r)
  end.

Definition Unserialize_vector (v : list T) : M (list T) :=
  let v : list T := [] in                       (* v.clear() *)
  nSize <- ReadCompactSize ;;
  Unserialize_elements (Z.to_nat nSize).
End Vector.

(** Modelled from the spec: a byte sequence ([CScript], a witness stack item)
    is its compact size followed by its bytes.  The reader takes the bytes in
    one read; splitting a long read into blocks would only move the position
    at which a truncated stream fails. *)
Definition Serialize_bytes (v : list byte) (os : Stream) : Stream :=
  write v (WriteCompactSize (Z.of_nat (length v)) os).

Definition Unserialize_bytes (v : list byte) : M (list byte) :=
  let v : list byte := [] in                      (* v.clear() *)
  nSize <- ReadCompactSize ;;
  read (Z.to_nat nSize).

(** Modelled from the spec: [uint256] ([uint256.h], not among the sources)
    is an opaque blob of 32 bytes, zeroed by its default constructor and by
    [SetNull], null when every byte is zero, and written raw. *)
Module uint256.
Definition t := list byte.
Definition WIDTH : nat := 32.
Definition default : t := repeat x00 WIDTH.
Definition SetNull (h : t) : t := repeat x00 WIDTH.
Definition IsNull (h : t) : bool :=
  forallb (fun b => Z_of_byte b =? 0) h.
Definition Serialize (h : t) : Stream -> Stream := write h.
Definition Unserialize (h : t) : M t := read WIDTH.

(** Modelled from the spec: [Compare] is [memcmp] over the bytes of the two
    blobs, the sign of the first pair of bytes that differ, compared as
    unsigned; [operator==] is [Compare(...) == 0] ([uint256.h], not among
    the sources). *)
Fixpoint Compare (a b : t) : Z :=
  match a, b with
  | x :: a', y :: b' =>
      if Z_of_byte x <? Z_of_byte y then -1
      else if Z_of_byte y <? Z_of_byte x then 1
      else Compare a' b'
  | _, _ => 0
  end.
Definition operator_eq (a b : t) : bool := Compare a b =? 0.
End uint256.

Definition CScript := list byte.

(** Modelled from the spec: [operator==] of the byte vector behind [CScript]
    ([prevector.h], not among the sources): equal sizes and equal bytes. *)
Fixpoint CScript_operator_eq (a b : CScript) : bool :=
  match a, b with
  | [], [] => true
  | x :: a', y :: b' => Byte.eqb x y && CScript_operator_eq a' b'
  | _, _ => false
  end.

(** Modelled from the spec: the witness stack of [script/script.h], "an
    ordered sequence of byte strings, default empty". *)
Module CScriptWitness.
Record t := mk { stack : list (list byte) }.
Definition default : t := {| stack := [] |}.
Definition IsNull (w : t) : bool :=
  match stack w with [] => true | _ :: _ => false end.
Definition Serialize_stack : list (list byte) -> Stream -> Stream :=
  Serialize_vector Serialize_bytes.
Definition Unserialize_stack : list (list byte) -> M (list (list byte)) :=
  Unserialize_vector [] Unserialize_bytes.
End CScriptWitness.

(** The cast [(uint32_t) x]. *)
Definition uint32_t (x : Z) : Z := x mod 2 ^ 32.

(** ** [COutPoint] *)
Module COutPoint.
Record t := mk { hash : uint256.t; n : Z }.

(* COutPoint(): n((uint32_t) -1) { } *)
Definition default : t := {| hash := uint256.default; n := uint32_t (-1) |}.

Definition Serialize (o : t) (s : Stream) : Stream :=
  let s := uint256.Serialize (hash o) s in
  let s := Serialize_uint32 (n o) s in
  s.

Definition Unserialize (o : t) : M t :=
  h <- uint256.Unserialize (hash o) ;;
  let o := {| hash := h; n := n o |} in
  x <- Unserialize_uint32 (n o) ;;
  let o := {| hash := hash o; n := x |} in
  ret o.

Definition SetNull (o : t) : t :=
  {| hash := uint256.SetNull (hash o); n := uint32_t (-1) |}.

Definition IsNull (o : t) : bool :=
  uint256.IsNull (hash o) && (n o =? uint32_t (-1)).

(* friend bool operator<(const COutPoint& a, const COutPoint& b) *)
Definition operator_lt (a b : t) : bool :=
  let cmp := uint256.Compare (hash a) (hash b) in
  (cmp <? 0) || ((cmp =? 0) && (n a <? n b)).

(* friend bool operator==(const COutPoint& a, const COutPoint& b) *)
Definition operator_eq (a b : t) : bool :=
  uint256.operator_eq (hash a) (hash b) && (n a =? n b).

(* friend bool operator!=(const COutPoint& a, const COutPoint& b) *)
Definition operator_ne (a b : t) : bool := negb (operator_eq a b).
End COutPoint.

(** ** [CTxIn] *)
Module CTxIn.
Record t := mk {
  prevout : COutPoint.t;
  scriptSig : CScript;
  nSequence : Z;
  scriptWitness : CScriptWitness.t    (* only serialized through CTransaction *)
}.

Definition SEQUENCE_FINAL : Z := 0xffffffff.

(* CTxIn() { nSequence = SEQUENCE_FINAL; } *)
Definition default : t :=
  {| prevout := COutPoint.default; scriptSig := [];
     nSequence := SEQUENCE_FINAL; scriptWitness := CScriptWitness.default |}.

Definition Serialize (i : t) (s : Stream) : Stream :=
  let s := COutPoint.Serialize (prevout i) s in
  let s := Serialize_bytes (scriptSig i) s in
  let s := Serialize_uint32 (nSequence i) s in
  s.

Definition Unserialize (i : t) : M t :=
  p <- COutPoint.Unserialize (prevout i) ;;
  let i := mk p (scriptSig i) (nSequence i) (scriptWitness i) in
  sc <- Unserialize_bytes (scriptSig i) ;;
  let i := mk (prevout i) sc (nSequence i) (scriptWitness i) in
  sq <- Unserialize_uint32 (nSequence i) ;;
  let i := mk (prevout i) (scriptSig i) sq (scriptWitness i) in
  ret i.

(** The assignment [i.scriptWitness.stack = st]. *)
Definition set_stack (i : t) (st : list (list byte)) : t :=
  mk (prevout i) (scriptSig i) (nSequence i) (CScriptWitness.mk st).

(* friend bool operator==(const CTxIn& a, const CTxIn& b) *)
Definition operator_eq (a b : t) : bool :=
  COutPoint.operator_eq (prevout a) (prevout b)
  && CScript_operator_eq (scriptSig a) (scriptSig b)
  && (nSequence a =? nSequence b).

(* friend bool operator!=(const CTxIn& a, const CTxIn& b) *)
Definition operator_ne (a b : t) : bool := negb (operator_eq a b).
End CTxIn.

(** ** [CTxOut] *)
Module CTxOut.
Record t := mk { nValue : Z; scriptPubKey : CScript }.

Definition SetNull (o : t) : t := {| nValue := -1; scriptPubKey := [] |}.

(* CTxOut() { SetNull(); } *)
Definition default : t := SetNull {| nValue := 0; scriptPubKey := [] |}.

Definition Serialize (o : t) (s : Stream) : Stream :=
  let s := Serialize_int64 (nValue o) s in
  let s := Serialize_bytes (scriptPubKey o) s in
  s.

Definition Unserialize (o : t) : M t :=
  v <- Unserialize_int64 (nValue o) ;;
  let o := {| nValue := v; scriptPubKey := scriptPubKey o |} in
  sc <- Unserialize_bytes (scriptPubKey o) ;;
  let o := {| nValue := nValue o; scriptPubKey := sc |} in
  ret o.

Definition IsNull (o : t) : bool := nValue o =? -1.

(* friend bool operator==(const CTxOut& a, const CTxOut& b) *)
Definition operator_eq (a b : t) : bool :=
  (nValue a =? nValue b) && CScript_operator_eq (scriptPubKey a) (scriptPubKey b).

(* friend bool operator!=(const CTxOut& a, const CTxOut& b) *)
Definition operator_ne (a b : t) : bool := negb (operator_eq a b).
End CTxOut.

Definition Serialize_vin : list CTxIn.t -> Stream -> Stream :=
  Serialize_vector CTxIn.Serialize.
Definition Unserialize_vin : list CTxIn.t -> M (list CTxIn.t) :=
  Unserialize_vector CTxIn.default CTxIn.Unserialize.
Definition Serialize_vout : list CTxOut.t -> Stream -> Stream :=
  Serialize_vector CTxOut.Serialize.
Definition Unserialize_vout : list CTxOut.t -> M (list CTxOut.t) :=
  Unserialize_vector CTxOut.default CTxOut.Unserialize.

(** ** The transaction codec *)

Definition SERIALIZE_TRANSACTION_NO_WITNESS : Z := 0x40000000.

(** What the templates [SerializeTransaction] and the hashing code use of
    their [TxType] argument. *)
Class TxType (T : Type) := {
  vin : T -> list CTxIn.t;
  vout : T -> list CTxOut.t;
  nVersion : T -> Z;
  nLockTime : T -> Z;
  HasWitness : T -> bool
}.

(** The loop of [HasWitness()], with its early [return true]. *)
Fixpoint HasWitness_loop (v : list CTxIn.t) : bool :=
  match v with
  | [] => false
  | i :: rest =>
      if negb (CScriptWitness.IsNull (CTxIn.scriptWitness i)) then true
      else HasWitness_loop rest
  end.

Module CMutableTransaction.
Record t := mk {
  vin : list CTxIn.t;
  vout : list CTxOut.t;
  nVersion : Z;
  nLockTime : Z
}.
Definition set_vin (tx : t) v := mk v (vout tx) (nVersion tx) (nLockTime tx).
Definition set_vout (tx : t) v := mk (vin tx) v (nVersion tx) (nLockTime tx).
Definition set_nVersion (tx : t) x := mk (vin tx) (vout tx) x (nLockTime tx).
Definition set_nLockTime (tx : t) x := mk (vin tx) (vout tx) (nVersion tx) x.
Definition HasWitness (tx : t) : bool := HasWitness_loop (vin tx).
End CMutableTransaction.

#[global] Instance CMutableTransaction_TxType : TxType CMutableTransaction.t := {
  vin := CMutableTransaction.vin;
  vout := CMutableTransaction.vout;
  nVersion := CMutableTransaction.nVersion;
  nLockTime := CMutableTransaction.nLockTime;
  HasWitness := CMutableTransaction.HasWitness
}.

(** [!(s.GetVersion() & SERIALIZE_TRANSACTION_NO_WITNESS)] *)
Definition fAllowWitness_of (s : Stream) : bool :=
  Z.land (GetVersion s) SERIALIZE_TRANSACTION_NO_WITNESS =? 0.

(** [for (i...) s << tx.vin[i].scriptWitness.stack;] *)
Definition Serialize_witnesses (v : list CTxIn.t) (s : Stream) : Stream :=
  fold_left
    (fun s i =>
       CScriptWitness.Serialize_stack
         (CScriptWitness.stack (CTxIn.scriptWitness i)) s)
    v s.

(** [for (i...) s >> tx.vin[i].scriptWitness.stack;]: each input, in order,
    has its stack replaced and its other fields kept. *)
Fixpoint Unserialize_witnesses (v : list CTxIn.t) : M (list CTxIn.t) :=
  match v with
  | [] => ret []
  | i :: rest =>
      st <- CScriptWitness.Unserialize_stack
              (CScriptWitness.stack (CTxIn.scriptWitness i)) ;;
      rest' <- Unserialize_witnesses rest ;;
      ret (CTxIn.set_stack i st :: rest')
  end.

Definition unknown_optional_data : exn :=
  ios_base_failure "Unknown transaction optional data".

(** Lines 242-267 of [UnserializeTransaction]: everything read before the
    check of the remaining flag bits; returns the target and the local
    [flags]. *)
Definition UnserializeTransaction_fields (tx : CMutableTransaction.t)
  : M (CMutableTransaction.t * Z) :=
  fun s =>
  let fAllowWitness := fAllowWitness_of s in
  (x <- Unserialize_int32 (CMutableTransaction.nVersion tx) ;;
   let tx := CMutableTransaction.set_nVersion tx x in
   let flags := 0 in
   let tx := CMutableTransaction.set_vin tx [] in
   let tx := CMutableTransaction.set_vout tx [] in
   (* Try to read the vin. In case the dummy is there, this will be read as
      an empty vector. *)
   v <- Unserialize_vin (CMutableTransaction.vin tx) ;;
   let tx := CMutableTransaction.set_vin tx v in
   '(tx, flags) <-
     (if (Nat.eqb (length (CMutableTransaction.vin tx)) 0) && fAllowWitness then
        (* We read a dummy or an empty vin. *)
        flags <- Unserialize_uchar flags ;;
        if negb (flags =? 0) then
          v <- Unserialize_vin (CMutableTransaction.vin tx) ;;
          let tx := CMutableTransaction.set_vin tx v in
          o <- Unserialize_vout (CMutableTransaction.vout tx) ;;
          let tx := CMutableTransaction.set_vout tx o in
          ret (tx, flags)
        else ret (tx, flags)
      else
        (* We read a non-empty vin. Assume a normal vout follows. *)
        o <- Unserialize_vout (CMutableTransaction.vout tx) ;;
        let tx := CMutableTransaction.set_vout tx o in
        ret (tx, flags)) ;;
   if negb (Z.land flags 1 =? 0) && fAllowWitness then
     (* The witness flag is present, and we support witnesses. *)
     let flags := Z.lxor flags 1 in
     v <- Unserialize_witnesses (CMutableTransaction.vin tx) ;;
     let tx := CMutableTransaction.set_vin tx v in
     ret (tx, flags)
   else ret (tx, flags)) s.

Definition UnserializeTransaction (tx : CMutableTransaction.t)
  : M CMutableTransaction.t :=
  '(tx, flags) <- UnserializeTransaction_fields tx ;;
  if negb (flags =? 0) then
    (* Unknown flag in the serialization *)
    throw unknown_optional_data
  else
    x <- Unserialize_uint32 (CMutableTransaction.nLockTime tx) ;;
    let tx := CMutableTransaction.set_nLockTime tx x in
    ret tx.

Definition SerializeTransaction {T} `{TxType T} (tx : T) (s : Stream) : Stream :=
  let fAllowWitness := fAllowWitness_of s in
  let s := Serialize_int32 (nVersion tx) s in
  let flags := 0 in
  (* Consistency check *)
  let flags :=
    if fAllowWitness then
      (* Check whether witnesses need to be serialized. *)
      if HasWitness tx then Z.lor flags 1 else flags
    else flags in
  let s :=
    if negb (flags =? 0) then
      (* Use extended format in case witnesses are to be serialized. *)
      let vinDummy : list CTxIn.t := [] in
      let s := Serialize_vin vinDummy s in
      let s := Serialize_uchar flags s in
      s
    else s in
  let s := Serialize_vin (vin tx) s in
  let s := Serialize_vout (vout tx) s in
  let s :=
    if negb (Z.land flags 1 =? 0) then Serialize_witnesses (vin tx) s
    else s in
  let s := Serialize_uint32 (nLockTime tx) s in
  s.

(** ** The decoder seen from the caller's object

    [UnserializeTransaction] takes [tx] by reference and fills it in place,
    so when a read throws the caller's object keeps what it held at that
    point.  [Outcome] records that object on both paths. *)
Inductive Outcome (S : Type) :=
| Done (st : S) (s : Stream)
| Raised (e : exn) (st : S) (s : Stream).
Arguments Done {S} st s.
Arguments Raised {S} e st s.

(** A read [r] made while the object is [left] should it throw. *)
Definition on_read {A S} (r : Result A) (left : S)
  (k : A -> Stream -> Outcome S) : Outcome S :=
  match r with
  | Ok a s' => k a s'
  | Throw e s' => Raised e left s'
  end.

(** Modelled from the spec: a scalar read assigns only once the value has
    been read, so a failing one leaves its target untouched.  A vector read
    clears its target first; what a failing one leaves in it is not fixed by
    the spec ("the caller must discard the in-progress value"), and the model
    takes the elements read completely before the failure ([serialize.h],
    not among the sources). *)
Section VectorLeft.
Context {T : Type}.
Variable T_default : T.
Variable Unserialize_T : T -> M T.

Fixpoint elements_read (k : nat) (s : Stream) : list T :=
  match k with
  | O => []
  | S k' =>
      match Unserialize_T T_default s with
      | Ok x s' => x :: elements_read k' s'
      | Throw _ _ => []
      end
  end.

Definition vector_left (s : Stream) : list T :=
  match ReadCompactSize s with
  | Ok nSize s' => elements_read (Z.to_nat nSize) s'
  | Throw _ _ => []
  end.
End VectorLeft.

Definition vin_left : Stream -> list CTxIn.t :=
  vector_left CTxIn.default CTxIn.Unserialize.
Definition vout_left : Stream -> list CTxOut.t :=
  vector_left CTxOut.default CTxOut.Unserialize.
Definition stack_left : Stream -> list (list byte) :=
  vector_left [] Unserialize_bytes.

(** [for (i...) s >> tx.vin[i].scriptWitness.stack;] in place: when the read
    for input [i] throws, the inputs before it have their stacks, and the
    inputs after it are as they were. *)
Fixpoint Unserialize_witnesses_in_place (v : list CTxIn.t) (s : Stream)
  : Outcome (list CTxIn.t) :=
  match v with
  | [] => Done [] s
  | i :: rest =>
      match CScriptWitness.Unserialize_stack
              (CScriptWitness.stack (CTxIn.scriptWitness i)) s with
      | Throw e s' => Raised e (CTxIn.set_stack i (stack_left s) :: rest) s'
      | Ok st s' =>
          match Unserialize_witnesses_in_place rest s' with
          | Done rest' s'' => Done (CTxIn.set_stack i st :: rest') s''
          | Raised e rest' s'' => Raised e (CTxIn.set_stack i st :: rest') s''
          end
      end
  end.

(** Lines 268-272 of [UnserializeTransaction], in place. *)
Definition UnserializeTransaction_in_place_locktime
  (tx : CMutableTransaction.t) (flags : Z) (s : Stream)
  : Outcome CMutableTransaction.t :=
  if negb (flags =? 0) then
    (* Unknown flag in the serialization *)
    Raised unknown_optional_data tx s
  else
    on_read (Unserialize_uint32 (CMutableTransaction.nLockTime tx) s) tx
      (fun x s =>
    let tx := CMutableTransaction.set_nLockTime tx x in
    Done tx s).

(** Lines 261-272 of [UnserializeTransaction], in place. *)
Definition UnserializeTransaction_in_place_witness (fAllowWitness : bool)
  (tx : CMutableTransaction.t) (flags : Z) (s : Stream)
  : Outcome CMutableTransaction.t :=
  if negb (Z.land flags 1 =? 0) && fAllowWitness then
    (* The witness flag is present, and we support witnesses. *)
    let flags := Z.lxor flags 1 in
    match Unserialize_witnesses_in_place (CMutableTransaction.vin tx) s with
    | Done v s =>
        let tx := CMutableTransaction.set_vin tx v in
        UnserializeTransaction_in_place_locktime tx flags s
    | Raised e v s => Raised e (CMutableTransaction.set_vin tx v) s
    end
  else UnserializeTransaction_in_place_locktime tx flags s.

(** [UnserializeTransaction(tx, s)] with [tx] filled in place. *)
Definition UnserializeTransaction_in_place
  (tx : CMutableTransaction.t) (s : Stream) : Outcome CMutableTransaction.t :=
  let fAllowWitness := fAllowWitness_of s in
  on_read (Unserialize_int32 (CMutableTransaction.nVersion tx) s) tx
    (fun x s =>
  let tx := CMutableTransaction.set_nVersion tx x in
  let flags := 0 in
  let tx := CMutableTransaction.set_vin tx [] in
  let tx := CMutableTransaction.set_vout tx [] in
  (* Try to read the vin. In case the dummy is there, this will be read as
     an empty vector. *)
  on_read (Unserialize_vin (CMutableTransaction.vin tx) s)
          (CMutableTransaction.set_vin tx (vin_left s))
    (fun v s =>
  let tx := CMutableTransaction.set_vin tx v in
  if (Nat.eqb (length (CMutableTransaction.vin tx)) 0) && fAllowWitness then
    (* We read a dummy or an empty vin. *)
    on_read (Unserialize_uchar flags s) tx
      (fun flags s =>
    if negb (flags =? 0) then
      on_read (Unserialize_vin (CMutableTransaction.vin tx) s)
              (CMutableTransaction.set_vin tx (vin_left s))
        (fun v s =>
      let tx := CMutableTransaction.set_vin tx v in
      on_read (Unserialize_vout (CMutableTransaction.vout tx) s)
              (CMutableTransaction.set_vout tx (vout_left s))
        (fun o s =>
      let tx := CMutableTransaction.set_vout tx o in
      UnserializeTransaction_in_place_witness fAllowWitness tx flags s))
    else UnserializeTransaction_in_place_witness fAllowWitness tx flags s)
  else
    (* We read a non-empty vin. Assume a normal vout follows. *)
    on_read (Unserialize_vout (CMutableTransaction.vout tx) s)
            (CMutableTransaction.set_vout tx (vout_left s))
      (fun o s =>
    let tx := CMutableTransaction.set_vout tx o in
    UnserializeTransaction_in_place_witness fAllowWitness tx flags s))).

(** The value view of an in-place outcome: the object on success, the
    exception alone on failure. *)
Definition outcome_result {S} (o : Outcome S) : Result S :=
  match o with
  | Done st s => Ok st s
  | Raised e _ s => Throw e s
  end.

(** [CMutableTransaction::Serialize] and [CMutableTransaction::Unserialize]:
    the latter is [UnserializeTransaction] applied to the object itself. *)
Definition CMutableTransaction_Serialize (tx : CMutableTransaction.t)
  : Stream -> Stream := SerializeTransaction tx.
Definition CMutableTransaction_Unserialize (tx : CMutableTransaction.t)
  (s : Stream) : Outcome CMutableTransaction.t :=
  UnserializeTransaction_in_place tx s.

(** Modelled from the spec: the 256-bit digest behind [SerializeHash]
    ([hash.h], not among the sources) is a parameter of the development. *)
Class HashFunction := Hash256 : list byte -> uint256.t.

(** Modelled from the spec: [SerializeHash(obj, nType, nVersion)] digests the
    bytes that serializing [obj] writes to a stream of version [nVersion]. *)
Definition SerializeHash {T} `{TxType T} `{HashFunction}
  (tx : T) (nStreamVersion : Z) : uint256.t :=
  Hash256 (vch (SerializeTransaction tx (mkStream [] nStreamVersion))).

(** ** [CTransaction] *)
Module CTransaction.
Record t := mk {
  vin : list CTxIn.t;
  vout : list CTxOut.t;
  nVersion : Z;
  nLockTime : Z;
  hash : uint256.t              (* memory only *)
}.
Definition CURRENT_VERSION : Z := 2.
Definition HasWitness (tx : t) : bool := HasWitness_loop (vin tx).

Definition IsNull (tx : t) : bool :=
  match vin tx, vout tx with [], [] => true | _, _ => false end.

Definition GetHash (tx : t) : uint256.t := hash tx.

Definition IsCoinBase (tx : t) : bool :=
  if Nat.eqb (length (vin tx)) 1
  then COutPoint.IsNull (CTxIn.prevout (nth 0 (vin tx) CTxIn.default))
  else false.
End CTransaction.

#[global] Instance CTransaction_TxType : TxType CTransaction.t := {
  vin := CTransaction.vin;
  vout := CTransaction.vout;
  nVersion := CTransaction.nVersion;
  nLockTime := CTransaction.nLockTime;
  HasWitness := CTransaction.HasWitness
}.

Definition CTransaction_Serialize (tx : CTransaction.t) : Stream -> Stream :=
  SerializeTransaction tx.

(** Modelled from the spec: the converting constructor
    [CMutableTransaction(const CTransaction&)], declared in the header and
    defined in [transaction.cpp], gives a builder "holding the same
    fields". *)
Definition CMutableTransaction_of (tx : CTransaction.t) : CMutableTransaction.t :=
  CMutableTransaction.mk (CTransaction.vin tx) (CTransaction.vout tx)
    (CTransaction.nVersion tx) (CTransaction.nLockTime tx).

Section Hashing.
Context `{HashFunction}.

(** Modelled from the spec: [CTransaction::ComputeHash]
    ([transaction.cpp], not among the sources) runs the codec "in
    witness-suppressed mode" (spec section 4.4). *)
Definition ComputeHash (tx : CTransaction.t) : uint256.t :=
  SerializeHash tx SERIALIZE_TRANSACTION_NO_WITNESS.

(** Modelled from the spec: the converting constructor
    [CTransaction(const CMutableTransaction&)] copies the four fields and
    memoizes the hash "exactly once at construction". *)
Definition CTransaction_of (tx : CMutableTransaction.t) : CTransaction.t :=
  let this :=
    CTransaction.mk (CMutableTransaction.vin tx) (CMutableTransaction.vout tx)
      (CMutableTransaction.nVersion tx) (CMutableTransaction.nLockTime tx)
      uint256.default in
  CTransaction.mk (CTransaction.vin this) (CTransaction.vout this)
    (CTransaction.nVersion this) (CTransaction.nLockTime this)
    (ComputeHash this).

(** Modelled from the spec: [CTransaction::GetWitnessHash] is "computed on
    demand by running the codec in witness-inclusive mode". *)
Definition GetWitnessHash (tx : CTransaction.t) : uint256.t :=
  SerializeHash tx 0.

(** Modelled from the spec: [CMutableTransaction::GetHash] "recomputes
    every call using the same legacy-mode codec path". *)
Definition CMutableTransaction_GetHash (tx : CMutableTransaction.t)
  : uint256.t :=
  SerializeHash tx SERIALIZE_TRANSACTION_NO_WITNESS.
End Hashing.

(** ** The concrete transactions of the specification's scenarios *)

Definition scenario_hash : uint256.t := repeat x00 31 ++ [x01].

Definition scenario_txin (st : list (list byte)) : CTxIn.t :=
  CTxIn.mk (COutPoint.mk scenario_hash 0) [] 0xFFFFFFFF (CScriptWitness.mk st).

Definition scenario_txout : CTxOut.t := CTxOut.mk 5000000000 [x51].

Definition scenario1 : CMutableTransaction.t :=
  CMutableTransaction.mk [scenario_txin []] [scenario_txout] 2 0.

Definition scenario2 : CMutableTransaction.t :=
  CMutableTransaction.mk [scenario_txin [[xab]]] [scenario_txout] 2 0.

(** Stream versions with witness serialization allowed and disallowed. *)
Definition witness_stream (bs : list byte) : Stream := mkStream bs 0.
Definition legacy_stream (bs : list byte) : Stream :=
  mkStream bs SERIALIZE_TRANSACTION_NO_WITNESS.

(** ** Byte layouts

    The bytes each writer appends, as plain functions; the writers are shown
    below to append exactly these. *)

Definition CompactSize_bytes (nSize : Z) : list byte :=
  if nSize <? 253 then le_bytes 1 nSize
  else if nSize <=? 0xFFFF then le_bytes 1 253 ++ le_bytes 2 nSize
  else if nSize <=? 0xFFFFFFFF then le_bytes 1 254 ++ le_bytes 4 nSize
  else le_bytes 1 255 ++ le_bytes 8 nSize.

Definition vector_bytes {T} (f : T -> list byte) (v : list T) : list byte :=
  CompactSize_bytes (Z.of_nat (length v)) ++ concat (map f v).

Definition bytes_bytes (v : list byte) : list byte :=
  CompactSize_bytes (Z.of_nat (length v)) ++ v.

Definition COutPoint_bytes (o : COutPoint.t) : list byte :=
  COutPoint.hash o ++ le_bytes 4 (COutPoint.n o).

Definition CTxIn_bytes (i : CTxIn.t) : list byte :=
  COutPoint_bytes (CTxIn.prevout i) ++ bytes_bytes (CTxIn.scriptSig i)
  ++ le_bytes 4 (CTxIn.nSequence i).

Definition CTxOut_bytes (o : CTxOut.t) : list byte :=
  le_bytes 8 (CTxOut.nValue o) ++ bytes_bytes (CTxOut.scriptPubKey o).

Definition stack_bytes (st : list (list byte)) : list byte :=
  vector_bytes bytes_bytes st.

Definition witnesses_bytes (v : list CTxIn.t) : list byte :=
  concat (map (fun i => stack_bytes (CScriptWitness.stack (CTxIn.scriptWitness i))) v).

(** The legacy ("basic") format: version, inputs, outputs, locktime. *)
Definition legacy_bytes (tx : CMutableTransaction.t) : list byte :=
  le_bytes 4 (CMutableTransaction.nVersion tx)
  ++ vector_bytes CTxIn_bytes (CMutableTransaction.vin tx)
  ++ vector_bytes CTxOut_bytes (CMutableTransaction.vout tx)
  ++ le_bytes 4 (CMutableTransaction.nLockTime tx).

(** The extended format: version, dummy, flags, inputs, outputs, witness
    stacks, locktime. *)
Definition extended_bytes (flags : Z) (tx : CMutableTransaction.t) : list byte :=
  le_bytes 4 (CMutableTransaction.nVersion tx)
  ++ CompactSize_bytes 0 ++ le_bytes 1 flags
  ++ vector_bytes CTxIn_bytes (CMutableTransaction.vin tx)
  ++ vector_bytes CTxOut_bytes (CMutableTransaction.vout tx)
  ++ witnesses_bytes (CMutableTransaction.vin tx)
  ++ le_bytes 4 (CMutableTransaction.nLockTime tx).

(** ** Values the C++ types can hold

    The records above use [Z] and [list]; these predicates cut them down to
    the ranges of the C++ field types, and sequence lengths to what
    [ReadCompactSize] accepts. *)

Definition in_uint32 (z : Z) : bool := (0 <=? z) && (z <? 2 ^ 32).
Definition in_int32 (z : Z) : bool := (- 2 ^ 31 <=? z) && (z <? 2 ^ 31).
Definition in_int64 (z : Z) : bool := (- 2 ^ 63 <=? z) && (z <? 2 ^ 63).
Definition size_ok {T} (v : list T) : bool := Z.of_nat (length v) <=? MAX_SIZE.

Definition COutPoint_ok (o : COutPoint.t) : bool :=
  Nat.eqb (length (COutPoint.hash o)) uint256.WIDTH && in_uint32 (COutPoint.n o).

Definition stack_ok (st : list (list byte)) : bool :=
  size_ok st && forallb size_ok st.

Definition CTxIn_ok (i : CTxIn.t) : bool :=
  COutPoint_ok (CTxIn.prevout i) && size_ok (CTxIn.scriptSig i)
  && in_uint32 (CTxIn.nSequence i)
  && stack_ok (CScriptWitness.stack (CTxIn.scriptWitness i)).

Definition CTxOut_ok (o : CTxOut.t) : bool :=
  in_int64 (CTxOut.nValue o) && size_ok (CTxOut.scriptPubKey o).

Definition tx_ok (tx : CMutableTransaction.t) : bool :=
  size_ok (CMutableTransaction.vin tx)
  && forallb CTxIn_ok (CMutableTransaction.vin tx)
  && size_ok (CMutableTransaction.vout tx)
  && forallb CTxOut_ok (CMutableTransaction.vout tx)
  && in_int32 (CMutableTransaction.nVersion tx)
  && in_uint32 (CMutableTransaction.nLockTime tx).

(** The transaction with every witness stack emptied: what a decoder that
    never reads witness data reconstructs. *)
Definition without_witness (tx : CMutableTransaction.t) : CMutableTransaction.t :=
  CMutableTransaction.set_vin tx
    (map (fun i => CTxIn.set_stack i []) (CMutableTransaction.vin tx)).

(** The legacy decoder in the words of the format comment: version, inputs,
    outputs, locktime, and nothing else. *)
Definition Unserialize_basic_format : M CMutableTransaction.t :=
  x <- Unserialize_int32 0 ;;
  v <- Unserialize_vin [] ;;
  o <- Unserialize_vout [] ;;
  l <- Unserialize_uint32 0 ;;
  ret (CMutableTransaction.mk v o x l).

(** Whether a stream of version [ver] allows witness serialization. *)
Definition allows (ver : Z) : bool := fAllowWitness_of (mkStream [] ver).

(** The failures raised by the stream collaborator, as opposed to the one
    raised by [UnserializeTransaction] itself. *)
Definition stream_failure (e : exn) : Prop :=
  e = end_of_data \/ e = non_canonical \/ e = size_too_large.

Definition throws_only {A} (P : exn -> Prop) (m : M A) : Prop :=
  forall s e s', m s = Throw e s' -> P e.

(** A digest without collisions, to evaluate the digest-parametric
    statements on concrete transactions. *)
Definition identity_digest : HashFunction := fun bs => bs.

(** A read that took [bs] from the front of [s] and left [s']. *)
Definition consumed (s : Stream) (bs : list byte) (s' : Stream) : Prop :=
  vch s = bs ++ vch s' /\ GetVersion s' = GetVersion s.

(** An input as the vector reader leaves it: valid, with no witness. *)
Definition fresh_input (i : CTxIn.t) : bool :=
  CTxIn_ok i && CScriptWitness.IsNull (CTxIn.scriptWitness i).

(** Sequence lengths that a [size_t] can hold. *)
Definition fits_size_t {T} (v : list T) : bool := Z.of_nat (length v) <? 2 ^ 64.

Definition stack_fits (st : list (list byte)) : bool :=
  fits_size_t st && forallb fits_size_t st.

Definition witness_fits (tx : CMutableTransaction.t) : bool :=
  forallb (fun i => stack_fits (CScriptWitness.stack (CTxIn.scriptWitness i)))
          (CMutableTransaction.vin tx).

(** The witness stacks of a sequence of inputs, in order. *)
Definition witness_stacks (v : list CTxIn.t) : list (list (list byte)) :=
  map (fun i => CScriptWitness.stack (CTxIn.scriptWitness i)) v.

(** The local [flags] at the check of line 268, for the byte [flags] read at
    line 252 on a stream that allows witnesses: bit 0 cleared if it was
    set. *)
Definition flags_after_clearing (flags : Z) : Z :=
  if negb (Z.land flags 1 =? 0) then Z.lxor flags 1 else flags.

(** The streams on which the decoder reaches the check with a bit of [flags]
    still set, leaving [s']: witnesses are allowed, and the stream holds a
    version, the dummy byte 0, a flags byte with some bit other than bit 0
    set, an input and an output sequence, the witness stacks if bit 0 is
    set, and then what [s'] holds. *)
Definition unknown_flags_encoding (s s' : Stream) : Prop :=
  fAllowWitness_of s = true
  /\ GetVersion s' = GetVersion s
  /\ exists (ver flags : Z) (vi : list CTxIn.t) (vo : list CTxOut.t),
       in_int32 ver = true
       /\ 0 <= flags < 256
       /\ flags_after_clearing flags <> 0
       /\ size_ok vi = true /\ forallb CTxIn_ok vi = true
       /\ size_ok vo = true /\ forallb CTxOut_ok vo = true
       /\ vch s = le_bytes 4 ver ++ [x00] ++ le_bytes 1 flags
                  ++ vector_bytes CTxIn_bytes vi
                  ++ vector_bytes CTxOut_bytes vo
                  ++ (if negb (Z.land flags 1 =? 0)
                      then witnesses_bytes vi else [])
                  ++ vch s'.

(** * Proofs *)

(** ** Bytes and little-endian images *)

Lemma Z_of_byte_range (b : byte) : 0 <= Z_of_byte b < 256.
Proof.
  unfold Z_of_byte. pose proof (Byte.to_N_bounded b) as Hb.
  split; [apply N2Z.is_nonneg | lia].
Qed.

Lemma byte_of_Z_of_byte (b : byte) : byte_of_Z (Z_of_byte b) = b.
Proof.
  unfold byte_of_Z. pose proof (Z_of_byte_range b) as Hr.
  rewrite Z.mod_small by exact Hr.
  unfold Z_of_byte. rewrite N2Z.id, Byte.of_to_N. reflexivity.
Qed.

Lemma Z_of_byte_of_Z (z : Z) : Z_of_byte (byte_of_Z z) = z mod 256.
Proof.
  unfold byte_of_Z.
  pose proof (Z.mod_pos_bound z 256 ltac:(lia)) as Hm.
  destruct (Byte.of_N (Z.to_N (z mod 256))) as [b|] eqn:E.
  - apply Byte.to_of_N in E. unfold Z_of_byte. rewrite E.
    rewrite Z2N.id; lia.
  - apply Byte.of_N_None_iff in E. lia.
Qed.

Lemma le_bytes_length (w : nat) (z : Z) : length (le_bytes w z) = w.
Proof.
  revert z; induction w as [|w IH]; intros z; simpl; [reflexivity|].
  now rewrite IH.
Qed.

Lemma le_value_le_bytes (w : nat) (z : Z) :
  le_value (le_bytes w z) = z mod 2 ^ (8 * Z.of_nat w).
Proof.
  revert z; induction w as [|w IH]; intros z.
  - simpl. now rewrite Z.mod_1_r.
  - cbn [le_bytes le_value]. rewrite IH, Z_of_byte_of_Z, Z.shiftr_div_pow2 by lia.
    replace (8 * Z.of_nat (S w)) with (8 + 8 * Z.of_nat w) by lia.
    rewrite Z.pow_add_r by lia.
    change (2 ^ 8) with 256.
    rewrite Z.rem_mul_r by lia. reflexivity.
Qed.

Lemma to_signed_mod (k : Z) (z : Z) :
  0 < k -> - 2 ^ (k - 1) <= z < 2 ^ (k - 1) ->
  to_signed k (z mod 2 ^ k) = z.
Proof.
  intros Hk Hz. unfold to_signed.
  assert (Hp : 2 ^ k = 2 * 2 ^ (k - 1)).
  { replace k with (1 + (k - 1)) at 1 by lia. rewrite Z.pow_add_r by lia. lia. }
  destruct (Z.ltb_spec (z mod 2 ^ k) (2 ^ (k - 1))) as [Hlt|Hge].
  - destruct (Z_lt_ge_dec z 0) as [Hneg|Hpos].
    + exfalso.
      assert (z mod 2 ^ k = z + 2 ^ k).
      { symmetry. apply Z.mod_unique with (q := -1); lia. }
      lia.
    + apply Z.mod_small. lia.
  - destruct (Z_lt_ge_dec z 0) as [Hneg|Hpos].
    + assert (z mod 2 ^ k = z + 2 ^ k).
      { symmetry. apply Z.mod_unique with (q := -1); lia. }
      lia.
    + exfalso. rewrite Z.mod_small in Hge by lia. lia.
Qed.

(** ** The stream monad *)

Lemma bind_Ok {A B} (m : M A) (k : A -> M B) s a s' :
  m s = Ok a s' -> bind m k s = k a s'.
Proof. unfold bind. now intros ->. Qed.

Lemma write_write (a b : list byte) (s : Stream) :
  write b (write a s) = write (a ++ b) s.
Proof. unfold write, set_vch. simpl. now rewrite app_assoc. Qed.

Lemma write_nil (s : Stream) : write [] s = s.
Proof. destruct s. unfold write, set_vch. simpl. now rewrite app_nil_r. Qed.

Lemma read_app (bs rest : list byte) (ver : Z) (k : nat) :
  length bs = k ->
  read k (mkStream (bs ++ rest) ver) = Ok bs (mkStream rest ver).
Proof.
  intros <-. unfold read, set_vch. cbn [vch GetVersion].
  rewrite length_app.
  replace (length bs + length rest <? length bs)%nat with false
    by (symmetry; apply Nat.ltb_ge; lia).
  rewrite firstn_app, Nat.sub_diag, firstn_all, firstn_O, app_nil_r.
  rewrite skipn_app, Nat.sub_diag, skipn_all, skipn_O. reflexivity.
Qed.

Lemma read_le (w : nat) (z : Z) (rest : list byte) (ver : Z) :
  read w (mkStream (le_bytes w z ++ rest) ver)
  = Ok (le_bytes w z) (mkStream rest ver).
Proof. apply read_app, le_bytes_length. Qed.

(** ** Writers append their byte layout *)

Lemma WriteCompactSize_bytes (n : Z) (s : Stream) :
  WriteCompactSize n s = write (CompactSize_bytes n) s.
Proof.
  unfold WriteCompactSize, CompactSize_bytes,
    ser_writedata8, ser_writedata16, ser_writedata32, ser_writedata64.
  destruct (n <? 253); [reflexivity|].
  destruct (n <=? 0xFFFF); [now rewrite write_write|].
  destruct (n <=? 0xFFFFFFFF); now rewrite write_write.
Qed.

Lemma fold_left_write {T} (ser : T -> Stream -> Stream) (f : T -> list byte) :
  (forall x s, ser x s = write (f x) s) ->
  forall v s, fold_left (fun os x => ser x os) v s = write (concat (map f v)) s.
Proof.
  intros Hser v; induction v as [|x v IH]; intros s; simpl.
  - now rewrite write_nil.
  - now rewrite IH, Hser, write_write.
Qed.

Lemma Serialize_vector_bytes {T} (ser : T -> Stream -> Stream) (f : T -> list byte) :
  (forall x s, ser x s = write (f x) s) ->
  forall v s, Serialize_vector ser v s = write (vector_bytes f v) s.
Proof.
  intros Hser v s. unfold Serialize_vector, vector_bytes.
  now rewrite (fold_left_write ser f Hser), WriteCompactSize_bytes, write_write.
Qed.

Lemma Serialize_bytes_bytes (v : list byte) (s : Stream) :
  Serialize_bytes v s = write (bytes_bytes v) s.
Proof.
  unfold Serialize_bytes, bytes_bytes.
  now rewrite WriteCompactSize_bytes, write_write.
Qed.

Lemma COutPoint_Serialize_bytes (o : COutPoint.t) (s : Stream) :
  COutPoint.Serialize o s = write (COutPoint_bytes o) s.
Proof.
  unfold COutPoint.Serialize, COutPoint_bytes, uint256.Serialize,
    Serialize_uint32, ser_writedata32.
  now rewrite write_write.
Qed.

Lemma CTxIn_Serialize_bytes (i : CTxIn.t) (s : Stream) :
  CTxIn.Serialize i s = write (CTxIn_bytes i) s.
Proof.
  unfold CTxIn.Serialize, CTxIn_bytes, Serialize_uint32, ser_writedata32.
  now rewrite COutPoint_Serialize_bytes, Serialize_bytes_bytes, !write_write,
    <- ?app_assoc.
Qed.

Lemma CTxOut_Serialize_bytes (o : CTxOut.t) (s : Stream) :
  CTxOut.Serialize o s = write (CTxOut_bytes o) s.
Proof.
  unfold CTxOut.Serialize, CTxOut_bytes, Serialize_int64, ser_writedata64.
  now rewrite Serialize_bytes_bytes, write_write.
Qed.

Lemma Serialize_vin_bytes (v : list CTxIn.t) (s : Stream) :
  Serialize_vin v s = write (vector_bytes CTxIn_bytes v) s.
Proof. apply Serialize_vector_bytes, CTxIn_Serialize_bytes. Qed.

Lemma Serialize_vout_bytes (v : list CTxOut.t) (s : Stream) :
  Serialize_vout v s = write (vector_bytes CTxOut_bytes v) s.
Proof. apply Serialize_vector_bytes, CTxOut_Serialize_bytes. Qed.

Lemma Serialize_stack_bytes (st : list (list byte)) (s : Stream) :
  CScriptWitness.Serialize_stack st s = write (stack_bytes st) s.
Proof. apply Serialize_vector_bytes, Serialize_bytes_bytes. Qed.

Lemma Serialize_witnesses_bytes (v : list CTxIn.t) (s : Stream) :
  Serialize_witnesses v s = write (witnesses_bytes v) s.
Proof.
  unfold Serialize_witnesses, witnesses_bytes.
  apply (fold_left_write
           (fun i => CScriptWitness.Serialize_stack
                       (CScriptWitness.stack (CTxIn.scriptWitness i)))).
  intros; apply Serialize_stack_bytes.
Qed.

(** What [SerializeTransaction] appends, by the two conditions it tests. *)
Lemma SerializeTransaction_bytes (tx : CMutableTransaction.t) (s : Stream) :
  SerializeTransaction tx s
  = write (if fAllowWitness_of s && CMutableTransaction.HasWitness tx
           then extended_bytes 1 tx else legacy_bytes tx) s.
Proof.
  unfold SerializeTransaction, extended_bytes, legacy_bytes.
  cbn [nVersion nLockTime vin vout HasWitness CMutableTransaction_TxType].
  unfold Serialize_int32, Serialize_uint32, Serialize_uchar,
    ser_writedata32, ser_writedata8.
  destruct (fAllowWitness_of s); cbn [andb];
    [destruct (CMutableTransaction.HasWitness tx)|];
    try change (Z.lor 0 1) with 1;
    try change (negb (1 =? 0)) with true;
    try change (negb (Z.land 1 1 =? 0)) with true;
    try change (negb (0 =? 0)) with false;
    try change (negb (Z.land 0 1 =? 0)) with false;
    cbv beta iota zeta;
    rewrite ?Serialize_vin_bytes, ?Serialize_vout_bytes,
      ?Serialize_witnesses_bytes, ?write_write, <- ?app_assoc;
    reflexivity.
Qed.

(** ** Readers invert the writers *)

Lemma ser_readdata8_le (z : Z) rest ver :
  ser_readdata8 (mkStream (le_bytes 1 z ++ rest) ver)
  = Ok (z mod 2 ^ 8) (mkStream rest ver).
Proof.
  unfold ser_readdata8. erewrite bind_Ok by apply read_le.
  unfold ret. now rewrite le_value_le_bytes.
Qed.

Lemma ser_readdata16_le (z : Z) rest ver :
  ser_readdata16 (mkStream (le_bytes 2 z ++ rest) ver)
  = Ok (z mod 2 ^ 16) (mkStream rest ver).
Proof.
  unfold ser_readdata16. erewrite bind_Ok by apply read_le.
  unfold ret. now rewrite le_value_le_bytes.
Qed.

Lemma ser_readdata32_le (z : Z) rest ver :
  ser_readdata32 (mkStream (le_bytes 4 z ++ rest) ver)
  = Ok (z mod 2 ^ 32) (mkStream rest ver).
Proof.
  unfold ser_readdata32. erewrite bind_Ok by apply read_le.
  unfold ret. now rewrite le_value_le_bytes.
Qed.

Lemma ser_readdata64_le (z : Z) rest ver :
  ser_readdata64 (mkStream (le_bytes 8 z ++ rest) ver)
  = Ok (z mod 2 ^ 64) (mkStream rest ver).
Proof.
  unfold ser_readdata64. erewrite bind_Ok by apply read_le.
  unfold ret. now rewrite le_value_le_bytes.
Qed.

Lemma in_uint32_spec z : in_uint32 z = true <-> 0 <= z < 2 ^ 32.
Proof. unfold in_uint32. rewrite andb_true_iff, Z.leb_le, Z.ltb_lt. tauto. Qed.

Lemma in_int32_spec z : in_int32 z = true <-> - 2 ^ 31 <= z < 2 ^ 31.
Proof. unfold in_int32. rewrite andb_true_iff, Z.leb_le, Z.ltb_lt. tauto. Qed.

Lemma in_int64_spec z : in_int64 z = true <-> - 2 ^ 63 <= z < 2 ^ 63.
Proof. unfold in_int64. rewrite andb_true_iff, Z.leb_le, Z.ltb_lt. tauto. Qed.

Lemma size_ok_spec {T} (v : list T) :
  size_ok v = true <-> 0 <= Z.of_nat (length v) <= MAX_SIZE.
Proof. unfold size_ok. rewrite Z.leb_le. lia. Qed.

Lemma Unserialize_uint32_le a z rest ver :
  in_uint32 z = true ->
  Unserialize_uint32 a (mkStream (le_bytes 4 z ++ rest) ver)
  = Ok z (mkStream rest ver).
Proof.
  intros Hz%in_uint32_spec. unfold Unserialize_uint32.
  rewrite ser_readdata32_le, Z.mod_small; auto.
Qed.

Lemma Unserialize_int32_le a z rest ver :
  in_int32 z = true ->
  Unserialize_int32 a (mkStream (le_bytes 4 z ++ rest) ver)
  = Ok z (mkStream rest ver).
Proof.
  intros Hz%in_int32_spec. unfold Unserialize_int32.
  erewrite bind_Ok by apply ser_readdata32_le.
  unfold ret. rewrite to_signed_mod; auto; lia.
Qed.

Lemma Unserialize_int64_le a z rest ver :
  in_int64 z = true ->
  Unserialize_int64 a (mkStream (le_bytes 8 z ++ rest) ver)
  = Ok z (mkStream rest ver).
Proof.
  intros Hz%in_int64_spec. unfold Unserialize_int64.
  erewrite bind_Ok by apply ser_readdata64_le.
  unfold ret. rewrite to_signed_mod; auto; lia.
Qed.

Lemma ReadCompactSize_bytes (n : Z) rest ver :
  0 <= n <= MAX_SIZE ->
  ReadCompactSize (mkStream (CompactSize_bytes n ++ rest) ver)
  = Ok n (mkStream rest ver).
Proof.
  unfold MAX_SIZE. intros Hn. unfold ReadCompactSize, CompactSize_bytes.
  assert (Hbig : (n >? 33554432) = false) by (rewrite Z.gtb_ltb; apply Z.ltb_ge; lia).
  destruct (Z.ltb_spec n 253) as [H1|H1].
  - erewrite bind_Ok by apply ser_readdata8_le.
    rewrite (Z.mod_small n) by lia.
    apply Z.ltb_lt in H1. rewrite H1.
    unfold bind at 1, ret at 1. unfold MAX_SIZE. now rewrite Hbig.
  - destruct (Z.leb_spec n 0xFFFF) as [H2|H2].
    + rewrite <- app_assoc.
      erewrite bind_Ok by apply ser_readdata8_le.
      change (253 mod 2 ^ 8 <? 253) with false.
      change (253 mod 2 ^ 8 =? 253) with true. cbv iota.
      erewrite bind_Ok.
      2:{ erewrite bind_Ok by apply ser_readdata16_le.
          rewrite (Z.mod_small n) by lia.
          apply Z.ltb_ge in H1. rewrite H1. reflexivity. }
      unfold MAX_SIZE. now rewrite Hbig.
    + assert (H3 : (n <=? 0xFFFFFFFF) = true) by (apply Z.leb_le; lia).
      rewrite H3, <- app_assoc.
      erewrite bind_Ok by apply ser_readdata8_le.
      change (254 mod 2 ^ 8 <? 253) with false.
      change (254 mod 2 ^ 8 =? 253) with false.
      change (254 mod 2 ^ 8 =? 254) with true. cbv iota.
      erewrite bind_Ok.
      2:{ erewrite bind_Ok by apply ser_readdata32_le.
          rewrite (Z.mod_small n) by lia.
          assert (H4 : (n <? 0x10000) = false) by (apply Z.ltb_ge; lia).
          rewrite H4. reflexivity. }
      unfold MAX_SIZE. now rewrite Hbig.
Qed.

Lemma Unserialize_bytes_bytes a (v : list byte) rest ver :
  size_ok v = true ->
  Unserialize_bytes a (mkStream (bytes_bytes v ++ rest) ver)
  = Ok v (mkStream rest ver).
Proof.
  intros Hv%size_ok_spec. unfold Unserialize_bytes, bytes_bytes.
  rewrite <- app_assoc.
  erewrite bind_Ok by (apply ReadCompactSize_bytes; exact Hv).
  rewrite Nat2Z.id. now apply read_app.
Qed.

Section VectorRoundTrip.
Context {T : Type}.
Variable ser : T -> list byte.
Variable dflt : T.
Variable unser : T -> M T.
Variable ok : T -> bool.
Variable back : T -> T.
Hypothesis unser_ser : forall x rest ver,
  ok x = true ->
  unser dflt (mkStream (ser x ++ rest) ver) = Ok (back x) (mkStream rest ver).

Lemma Unserialize_elements_bytes (v : list T) rest ver :
  forallb ok v = true ->
  Unserialize_elements dflt unser (length v)
    (mkStream (concat (map ser v) ++ rest) ver)
  = Ok (map back v) (mkStream rest ver).
Proof.
  induction v as [|x v IH]; intros Hok.
  - reflexivity.
  - cbn [forallb] in Hok. apply andb_true_iff in Hok as [Hx Hv].
    cbn [length Unserialize_elements map concat]. rewrite <- app_assoc.
    erewrite bind_Ok by (apply unser_ser; exact Hx).
    erewrite bind_Ok by (apply IH; exact Hv).
    reflexivity.
Qed.

Lemma Unserialize_vector_bytes a (v : list T) rest ver :
  size_ok v = true -> forallb ok v = true ->
  Unserialize_vector dflt unser a (mkStream (vector_bytes ser v ++ rest) ver)
  = Ok (map back v) (mkStream rest ver).
Proof.
  intros Hs%size_ok_spec Hok. unfold Unserialize_vector, vector_bytes.
  rewrite <- app_assoc.
  erewrite bind_Ok by (apply ReadCompactSize_bytes; exact Hs).
  rewrite Nat2Z.id. now apply Unserialize_elements_bytes.
Qed.
End VectorRoundTrip.

Lemma COutPoint_Unserialize_bytes a (o : COutPoint.t) rest ver :
  COutPoint_ok o = true ->
  COutPoint.Unserialize a (mkStream (COutPoint_bytes o ++ rest) ver)
  = Ok o (mkStream rest ver).
Proof.
  unfold COutPoint_ok. intros [Hh Hn]%andb_true_iff.
  apply Nat.eqb_eq in Hh.
  unfold COutPoint.Unserialize, COutPoint_bytes, uint256.Unserialize.
  rewrite <- app_assoc.
  erewrite bind_Ok by (apply read_app; exact Hh).
  cbn [COutPoint.n COutPoint.hash].
  erewrite bind_Ok by (apply Unserialize_uint32_le; exact Hn).
  destruct o; reflexivity.
Qed.

Lemma CTxIn_Unserialize_bytes (i : CTxIn.t) rest ver :
  CTxIn_ok i = true ->
  CTxIn.Unserialize CTxIn.default (mkStream (CTxIn_bytes i ++ rest) ver)
  = Ok (CTxIn.set_stack i []) (mkStream rest ver).
Proof.
  unfold CTxIn_ok.
  intros [[[Hp Hs]%andb_true_iff Hq]%andb_true_iff _]%andb_true_iff.
  unfold CTxIn.Unserialize, CTxIn_bytes. rewrite <- !app_assoc.
  erewrite bind_Ok by (apply COutPoint_Unserialize_bytes; exact Hp).
  cbn [CTxIn.prevout CTxIn.scriptSig CTxIn.nSequence CTxIn.scriptWitness].
  erewrite bind_Ok by (apply Unserialize_bytes_bytes; exact Hs).
  erewrite bind_Ok by (apply Unserialize_uint32_le; exact Hq).
  reflexivity.
Qed.

Lemma CTxOut_Unserialize_bytes a (o : CTxOut.t) rest ver :
  CTxOut_ok o = true ->
  CTxOut.Unserialize a (mkStream (CTxOut_bytes o ++ rest) ver)
  = Ok o (mkStream rest ver).
Proof.
  unfold CTxOut_ok. intros [Hv Hs]%andb_true_iff.
  unfold CTxOut.Unserialize, CTxOut_bytes. rewrite <- app_assoc.
  erewrite bind_Ok by (apply Unserialize_int64_le; exact Hv).
  cbn [CTxOut.nValue CTxOut.scriptPubKey].
  erewrite bind_Ok by (apply Unserialize_bytes_bytes; exact Hs).
  destruct o; reflexivity.
Qed.

Lemma Unserialize_vin_bytes a (v : list CTxIn.t) rest ver :
  size_ok v = true -> forallb CTxIn_ok v = true ->
  Unserialize_vin a (mkStream (vector_bytes CTxIn_bytes v ++ rest) ver)
  = Ok (map (fun i => CTxIn.set_stack i []) v) (mkStream rest ver).
Proof.
  intros Hs Hok. unfold Unserialize_vin.
  apply Unserialize_vector_bytes with (ok := CTxIn_ok); auto.
  intros; now apply CTxIn_Unserialize_bytes.
Qed.

Lemma Unserialize_vout_bytes a (v : list CTxOut.t) rest ver :
  size_ok v = true -> forallb CTxOut_ok v = true ->
  Unserialize_vout a (mkStream (vector_bytes CTxOut_bytes v ++ rest) ver)
  = Ok v (mkStream rest ver).
Proof.
  intros Hs Hok. unfold Unserialize_vout.
  rewrite <- (map_id v) at 2.
  apply Unserialize_vector_bytes with (ok := CTxOut_ok); auto.
  intros; now apply CTxOut_Unserialize_bytes.
Qed.

Lemma Unserialize_stack_bytes a (st : list (list byte)) rest ver :
  stack_ok st = true ->
  CScriptWitness.Unserialize_stack a (mkStream (stack_bytes st ++ rest) ver)
  = Ok st (mkStream rest ver).
Proof.
  unfold stack_ok. intros [Hs Hok]%andb_true_iff.
  unfold CScriptWitness.Unserialize_stack, stack_bytes.
  rewrite <- (map_id st) at 2.
  apply Unserialize_vector_bytes with (ok := size_ok); auto.
  intros; now apply Unserialize_bytes_bytes.
Qed.

Lemma set_stack_restore (i : CTxIn.t) :
  CTxIn.set_stack (CTxIn.set_stack i [])
    (CScriptWitness.stack (CTxIn.scriptWitness i)) = i.
Proof. destruct i as [p s q [st]]. reflexivity. Qed.

Lemma Unserialize_witnesses_bytes (v : list CTxIn.t) rest ver :
  forallb CTxIn_ok v = true ->
  Unserialize_witnesses (map (fun i => CTxIn.set_stack i []) v)
    (mkStream (witnesses_bytes v ++ rest) ver)
  = Ok v (mkStream rest ver).
Proof.
  unfold witnesses_bytes.
  induction v as [|i v IH]; intros Hok.
  - reflexivity.
  - cbn [forallb] in Hok. apply andb_true_iff in Hok as [Hi Hv].
    unfold CTxIn_ok in Hi. apply andb_true_iff in Hi as [_ Hst].
    cbn [map concat Unserialize_witnesses]. rewrite <- app_assoc.
    erewrite bind_Ok by (apply Unserialize_stack_bytes; exact Hst).
    erewrite bind_Ok by (apply IH; exact Hv).
    unfold ret. now rewrite set_stack_restore.
Qed.

Lemma HasWitness_loop_false (v : list CTxIn.t) :
  HasWitness_loop v = false ->
  map (fun i => CTxIn.set_stack i []) v = v.
Proof.
  induction v as [|i v IH]; intros H; [reflexivity|].
  cbn [HasWitness_loop] in H.
  destruct i as [p s q [st]]. unfold CScriptWitness.IsNull in H.
  cbn [CTxIn.scriptWitness CScriptWitness.stack] in H.
  destruct st; cbn [negb] in H; [|discriminate].
  cbn [map]. rewrite IH by exact H. reflexivity.
Qed.

Lemma HasWitness_loop_spec (v : list CTxIn.t) :
  HasWitness_loop v = true <->
  exists i, In i v /\ CScriptWitness.stack (CTxIn.scriptWitness i) <> [].
Proof.
  induction v as [|i v IH]; cbn [HasWitness_loop].
  - split; [discriminate | intros (i & [] & _)].
  - unfold CScriptWitness.IsNull.
    destruct (CScriptWitness.stack (CTxIn.scriptWitness i)) as [|x st] eqn:E;
      cbn [negb].
    + rewrite IH. split.
      * intros (j & Hj & Hne). exists j. split; [now right | exact Hne].
      * intros (j & [->|Hj] & Hne); [congruence|]. now exists j.
    + split; [intros _ | reflexivity].
      exists i. split; [now left | rewrite E; discriminate].
Qed.

(** ** Decoding the two formats *)

Lemma tx_ok_parts (tx : CMutableTransaction.t) :
  tx_ok tx = true ->
  size_ok (CMutableTransaction.vin tx) = true
  /\ forallb CTxIn_ok (CMutableTransaction.vin tx) = true
  /\ size_ok (CMutableTransaction.vout tx) = true
  /\ forallb CTxOut_ok (CMutableTransaction.vout tx) = true
  /\ in_int32 (CMutableTransaction.nVersion tx) = true
  /\ in_uint32 (CMutableTransaction.nLockTime tx) = true.
Proof.
  unfold tx_ok. rewrite !andb_true_iff. tauto.
Qed.

Lemma fields_basic_nonempty tx0 (tx : CMutableTransaction.t) rest ver :
  tx_ok tx = true ->
  CMutableTransaction.vin tx <> [] ->
  UnserializeTransaction_fields tx0
    (mkStream (le_bytes 4 (CMutableTransaction.nVersion tx)
               ++ vector_bytes CTxIn_bytes (CMutableTransaction.vin tx)
               ++ vector_bytes CTxOut_bytes (CMutableTransaction.vout tx)
               ++ rest) ver)
  = Ok (CMutableTransaction.mk
          (map (fun i => CTxIn.set_stack i []) (CMutableTransaction.vin tx))
          (CMutableTransaction.vout tx) (CMutableTransaction.nVersion tx)
          (CMutableTransaction.nLockTime tx0), 0)
       (mkStream rest ver).
Proof.
  intros (Hvs & Hvi & Hos & Hoo & Hver & _)%tx_ok_parts Hne.
  unfold UnserializeTransaction_fields. cbv zeta.
  erewrite bind_Ok by (apply Unserialize_int32_le; exact Hver).
  erewrite bind_Ok by (apply Unserialize_vin_bytes; assumption).
  cbn [CMutableTransaction.vin CMutableTransaction.vout
       CMutableTransaction.nVersion CMutableTransaction.nLockTime
       CMutableTransaction.set_vin CMutableTransaction.set_vout
       CMutableTransaction.set_nVersion].
  destruct (CMutableTransaction.vin tx) as [|i v] eqn:E; [congruence|].
  cbn [map length Nat.eqb andb].
  erewrite bind_Ok.
  2:{ erewrite bind_Ok by (apply Unserialize_vout_bytes; assumption).
      reflexivity. }
  reflexivity.
Qed.

Lemma fields_basic_legacy tx0 (tx : CMutableTransaction.t) rest ver :
  tx_ok tx = true ->
  allows ver = false ->
  UnserializeTransaction_fields tx0
    (mkStream (le_bytes 4 (CMutableTransaction.nVersion tx)
               ++ vector_bytes CTxIn_bytes (CMutableTransaction.vin tx)
               ++ vector_bytes CTxOut_bytes (CMutableTransaction.vout tx)
               ++ rest) ver)
  = Ok (CMutableTransaction.mk
          (map (fun i => CTxIn.set_stack i []) (CMutableTransaction.vin tx))
          (CMutableTransaction.vout tx) (CMutableTransaction.nVersion tx)
          (CMutableTransaction.nLockTime tx0), 0)
       (mkStream rest ver).
Proof.
  intros (Hvs & Hvi & Hos & Hoo & Hver & _)%tx_ok_parts Hno.
  unfold UnserializeTransaction_fields. cbv zeta.
  change (fAllowWitness_of (mkStream _ ver)) with (allows ver). rewrite Hno.
  erewrite bind_Ok by (apply Unserialize_int32_le; exact Hver).
  erewrite bind_Ok by (apply Unserialize_vin_bytes; assumption).
  cbn [CMutableTransaction.vin CMutableTransaction.vout
       CMutableTransaction.nVersion CMutableTransaction.nLockTime
       CMutableTransaction.set_vin CMutableTransaction.set_vout
       CMutableTransaction.set_nVersion].
  rewrite !andb_false_r.
  erewrite bind_Ok.
  2:{ erewrite bind_Ok by (apply Unserialize_vout_bytes; assumption).
      reflexivity. }
  reflexivity.
Qed.

Lemma fields_basic_empty tx0 (x : Z) rest ver :
  in_int32 x = true ->
  allows ver = true ->
  UnserializeTransaction_fields tx0
    (mkStream (le_bytes 4 x ++ vector_bytes CTxIn_bytes []
               ++ vector_bytes CTxOut_bytes [] ++ rest) ver)
  = Ok (CMutableTransaction.mk [] [] x (CMutableTransaction.nLockTime tx0), 0)
       (mkStream rest ver).
Proof.
  intros Hver Hyes.
  unfold UnserializeTransaction_fields. cbv zeta.
  change (fAllowWitness_of (mkStream _ ver)) with (allows ver). rewrite Hyes.
  erewrite bind_Ok by (apply Unserialize_int32_le; exact Hver).
  erewrite bind_Ok by (apply (Unserialize_vin_bytes _ []); reflexivity).
  reflexivity.
Qed.

Lemma fields_extended tx0 (tx : CMutableTransaction.t) rest ver :
  tx_ok tx = true ->
  allows ver = true ->
  UnserializeTransaction_fields tx0
    (mkStream (le_bytes 4 (CMutableTransaction.nVersion tx)
               ++ CompactSize_bytes 0 ++ le_bytes 1 1
               ++ vector_bytes CTxIn_bytes (CMutableTransaction.vin tx)
               ++ vector_bytes CTxOut_bytes (CMutableTransaction.vout tx)
               ++ witnesses_bytes (CMutableTransaction.vin tx)
               ++ rest) ver)
  = Ok (CMutableTransaction.mk
          (CMutableTransaction.vin tx)
          (CMutableTransaction.vout tx) (CMutableTransaction.nVersion tx)
          (CMutableTransaction.nLockTime tx0), 0)
       (mkStream rest ver).
Proof.
  intros (Hvs & Hvi & Hos & Hoo & Hver & _)%tx_ok_parts Hyes.
  unfold UnserializeTransaction_fields. cbv zeta.
  change (fAllowWitness_of (mkStream _ ver)) with (allows ver). rewrite Hyes.
  erewrite bind_Ok by (apply Unserialize_int32_le; exact Hver).
  erewrite bind_Ok by (apply (Unserialize_vin_bytes _ []); reflexivity).
  cbn [CMutableTransaction.vin CMutableTransaction.vout
       CMutableTransaction.nVersion CMutableTransaction.nLockTime
       CMutableTransaction.set_vin CMutableTransaction.set_vout
       CMutableTransaction.set_nVersion map length Nat.eqb andb].
  erewrite bind_Ok.
  2:{ unfold Unserialize_uchar.
      erewrite bind_Ok by apply ser_readdata8_le.
      change (negb (1 mod 2 ^ 8 =? 0)) with true. cbv iota.
      erewrite bind_Ok by (apply Unserialize_vin_bytes; assumption).
      erewrite bind_Ok by (apply Unserialize_vout_bytes; assumption).
      reflexivity. }
  cbv beta iota.
  change (negb (Z.land (1 mod 2 ^ 8) 1 =? 0)) with true. cbn [andb].
  cbn [CMutableTransaction.vin CMutableTransaction.vout
       CMutableTransaction.nVersion CMutableTransaction.nLockTime
       CMutableTransaction.set_vin CMutableTransaction.set_vout
       CMutableTransaction.set_nVersion].
  erewrite bind_Ok by (apply Unserialize_witnesses_bytes; assumption).
  reflexivity.
Qed.

Lemma without_witness_fields (tx : CMutableTransaction.t) :
  without_witness tx
  = CMutableTransaction.mk
      (map (fun i => CTxIn.set_stack i []) (CMutableTransaction.vin tx))
      (CMutableTransaction.vout tx) (CMutableTransaction.nVersion tx)
      (CMutableTransaction.nLockTime tx).
Proof. reflexivity. Qed.

Lemma Unserialize_legacy_bytes tx0 (tx : CMutableTransaction.t) rest ver :
  tx_ok tx = true ->
  (allows ver = true -> CMutableTransaction.vin tx = [] ->
   CMutableTransaction.vout tx = []) ->
  UnserializeTransaction tx0 (mkStream (legacy_bytes tx ++ rest) ver)
  = Ok (without_witness tx) (mkStream rest ver).
Proof.
  intros Hok Hshape. pose proof (tx_ok_parts tx Hok) as (_ & _ & _ & _ & Hver & Hlock).
  unfold UnserializeTransaction, legacy_bytes. rewrite <- !app_assoc.
  assert (Hf : UnserializeTransaction_fields tx0
                 (mkStream (le_bytes 4 (CMutableTransaction.nVersion tx)
                   ++ vector_bytes CTxIn_bytes (CMutableTransaction.vin tx)
                   ++ vector_bytes CTxOut_bytes (CMutableTransaction.vout tx)
                   ++ le_bytes 4 (CMutableTransaction.nLockTime tx) ++ rest) ver)
               = Ok (CMutableTransaction.mk
                       (map (fun i => CTxIn.set_stack i []) (CMutableTransaction.vin tx))
                       (CMutableTransaction.vout tx) (CMutableTransaction.nVersion tx)
                       (CMutableTransaction.nLockTime tx0), 0)
                    (mkStream (le_bytes 4 (CMutableTransaction.nLockTime tx) ++ rest) ver)).
  { destruct (allows ver) eqn:Ha.
    - destruct (CMutableTransaction.vin tx) as [|i v] eqn:Ev.
      + rewrite (Hshape eq_refl eq_refl).
        apply fields_basic_empty; assumption.
      + rewrite <- Ev. apply fields_basic_nonempty; [assumption|].
        rewrite Ev; discriminate.
    - apply fields_basic_legacy; assumption. }
  erewrite bind_Ok by exact Hf.
  cbv beta iota. change (negb (0 =? 0)) with false. cbv iota.
  erewrite bind_Ok by (apply Unserialize_uint32_le; exact Hlock).
  reflexivity.
Qed.

Lemma Unserialize_extended_bytes tx0 (tx : CMutableTransaction.t) rest ver :
  tx_ok tx = true ->
  allows ver = true ->
  UnserializeTransaction tx0 (mkStream (extended_bytes 1 tx ++ rest) ver)
  = Ok tx (mkStream rest ver).
Proof.
  intros Hok Hyes. pose proof (tx_ok_parts tx Hok) as (_ & _ & _ & _ & Hver & Hlock).
  unfold UnserializeTransaction, extended_bytes. rewrite <- !app_assoc.
  erewrite bind_Ok by (apply fields_extended; assumption).
  cbv beta iota. change (negb (0 =? 0)) with false. cbv iota.
  erewrite bind_Ok by (apply Unserialize_uint32_le; exact Hlock).
  destruct tx; reflexivity.
Qed.

Lemma HasWitness_false_without (tx : CMutableTransaction.t) :
  CMutableTransaction.HasWitness tx = false -> without_witness tx = tx.
Proof.
  intros H. rewrite without_witness_fields.
  rewrite HasWitness_loop_false by exact H. destruct tx; reflexivity.
Qed.

(** Reading back what [SerializeTransaction] wrote to a fresh stream, with
    arbitrary bytes following. *)
Lemma Unserialize_Serialize_frame tx0 (tx : CMutableTransaction.t) ver rest :
  tx_ok tx = true ->
  (allows ver = true -> CMutableTransaction.vin tx = [] ->
   CMutableTransaction.vout tx = []) ->
  UnserializeTransaction tx0
    (write rest (SerializeTransaction tx (mkStream [] ver)))
  = Ok (if allows ver then tx else without_witness tx) (mkStream rest ver).
Proof.
  intros Hok Hshape.
  rewrite SerializeTransaction_bytes, write_write.
  change (fAllowWitness_of (mkStream [] ver)) with (allows ver).
  unfold write, set_vch. cbn [vch GetVersion app].
  destruct (allows ver) eqn:Ha; cbn [andb].
  - destruct (CMutableTransaction.HasWitness tx) eqn:Hw.
    + apply Unserialize_extended_bytes; assumption.
    + rewrite <- (HasWitness_false_without tx Hw) at 2.
      apply Unserialize_legacy_bytes; [assumption|].
      intros _; now apply Hshape.
  - apply Unserialize_legacy_bytes; [assumption|]. rewrite Ha; discriminate.
Qed.

(** * The claims *)

(** C1 (as amended).  Round trip: for a transaction [tx] whose fields are in
    the range of their C++ types and whose sequence lengths are accepted by
    [ReadCompactSize], serializing to a fresh stream and deserializing into
    any target gives back [tx] itself when the stream allows witness
    serialization, provided [tx] has at least one input or else no output
    either, and gives back [tx] with its witness stacks emptied when the
    stream disallows it; the stream is left fully consumed. *)
Theorem roundtrip_SerializeTransaction
  (tx0 tx : CMutableTransaction.t) (s : Stream) :
  tx_ok tx = true ->
  vch s = [] ->
  (fAllowWitness_of s = true ->
   CMutableTransaction.vin tx = [] -> CMutableTransaction.vout tx = []) ->
  UnserializeTransaction tx0 (SerializeTransaction tx s)
  = Ok (if fAllowWitness_of s then tx else without_witness tx) s.
Proof.
  intros Hok Hs Hshape. destruct s as [bs ver]. cbn [vch] in Hs. subst bs.
  rewrite <- (write_nil (SerializeTransaction tx (mkStream [] ver))).
  apply Unserialize_Serialize_frame; assumption.
Qed.

Lemma roundtrip_SerializeTransaction_witness :
  UnserializeTransaction scenario1
    (SerializeTransaction scenario2 (witness_stream []))
  = Ok scenario2 (witness_stream []).
Proof.
  apply (roundtrip_SerializeTransaction scenario1 scenario2 (witness_stream []));
    [reflexivity | reflexivity | intros _ H; discriminate H].
Defined.

(** C1 as stated fails in witness mode for a transaction without inputs: the
    encoder writes the legacy format, the decoder takes the empty input count
    for the dummy and the output count for the flags, and returns a
    transaction that has lost its output. *)
Lemma roundtrip_fails_without_inputs :
  let tx := CMutableTransaction.mk [] [CTxOut.mk 0 []] 2 0 in
  tx_ok tx = true
  /\ UnserializeTransaction tx (SerializeTransaction tx (witness_stream []))
     = Ok (CMutableTransaction.mk [] [] 2 0)
          (witness_stream [x00; x00; x00; x00; x00; x00; x00])
  /\ CMutableTransaction.mk [] [] 2 0 <> tx.
Proof.
  split; [reflexivity|]. split; [vm_compute; reflexivity | discriminate].
Qed.

(** C3.  [SerializeTransaction] appends the version, then the dummy byte 0
    immediately followed by the flags byte 1 exactly when the stream allows
    witness serialization and [HasWitness] holds, then inputs and outputs,
    the witness stacks in that same case only, and the locktime; and
    [HasWitness] holds exactly when some input carries a non-empty stack.
    A [CTransaction] is written as the [CMutableTransaction] with its
    fields. *)
Theorem SerializeTransaction_dummy_flags
  (tx : CMutableTransaction.t) (s : Stream) :
  let extended := fAllowWitness_of s && CMutableTransaction.HasWitness tx in
  vch (SerializeTransaction tx s)
  = vch s
    ++ le_bytes 4 (CMutableTransaction.nVersion tx)
    ++ (if extended then [x00; x01] else [])
    ++ vector_bytes CTxIn_bytes (CMutableTransaction.vin tx)
    ++ vector_bytes CTxOut_bytes (CMutableTransaction.vout tx)
    ++ (if extended then witnesses_bytes (CMutableTransaction.vin tx) else [])
    ++ le_bytes 4 (CMutableTransaction.nLockTime tx)
  /\ (extended = true <->
      fAllowWitness_of s = true
      /\ exists i, In i (CMutableTransaction.vin tx)
                   /\ CScriptWitness.stack (CTxIn.scriptWitness i) <> [])
  /\ Z.testbit (Z_of_byte x01) 0 = true
  /\ (forall k, 0 < k -> Z.testbit (Z_of_byte x01) k = false)
  /\ (forall t : CTransaction.t,
        SerializeTransaction t s = SerializeTransaction (CMutableTransaction_of t) s
        /\ CTransaction.HasWitness t
           = CMutableTransaction.HasWitness (CMutableTransaction_of t)).
Proof.
  intros extended. split; [|split; [|split; [|split]]].
  - rewrite SerializeTransaction_bytes. fold extended.
    unfold write, set_vch. cbn [vch].
    destruct extended; reflexivity.
  - unfold extended, CMutableTransaction.HasWitness.
    rewrite andb_true_iff, HasWitness_loop_spec. reflexivity.
  - reflexivity.
  - intros k Hk. change (Z_of_byte x01) with 1.
    destruct k as [|p|p]; try lia. reflexivity.
  - intros t. split; reflexivity.
Qed.

(** C4.  When no input carries a non-empty witness stack, a stream that
    allows witness serialization and one that does not receive the same
    bytes, namely the legacy format: version, inputs, outputs, locktime. *)
Theorem SerializeTransaction_no_witness_compaction
  (tx : CMutableTransaction.t) (s1 s2 : Stream) :
  (forall i, In i (CMutableTransaction.vin tx) ->
             CScriptWitness.stack (CTxIn.scriptWitness i) = []) ->
  fAllowWitness_of s1 = true ->
  fAllowWitness_of s2 = false ->
  vch s1 = vch s2 ->
  vch (SerializeTransaction tx s1) = vch (SerializeTransaction tx s2)
  /\ vch (SerializeTransaction tx s1)
     = vch s1
       ++ le_bytes 4 (CMutableTransaction.nVersion tx)
       ++ vector_bytes CTxIn_bytes (CMutableTransaction.vin tx)
       ++ vector_bytes CTxOut_bytes (CMutableTransaction.vout tx)
       ++ le_bytes 4 (CMutableTransaction.nLockTime tx).
Proof.
  intros Hnone H1 H2 Hv.
  assert (Hw : CMutableTransaction.HasWitness tx = false).
  { destruct (CMutableTransaction.HasWitness tx) eqn:E; [|reflexivity].
    apply HasWitness_loop_spec in E as (i & Hi & Hne).
    now apply Hnone in Hi. }
  rewrite !SerializeTransaction_bytes, H1, H2, Hw. cbn [andb].
  unfold write, set_vch. cbn [vch]. rewrite Hv. split; reflexivity.
Qed.

Lemma SerializeTransaction_no_witness_compaction_witness :
  vch (SerializeTransaction scenario1 (witness_stream []))
  = vch (SerializeTransaction scenario1 (legacy_stream [])).
Proof.
  apply (SerializeTransaction_no_witness_compaction scenario1
           (witness_stream []) (legacy_stream [])).
  - intros i [<-|[]]. reflexivity.
  - reflexivity.
  - reflexivity.
  - reflexivity.
Defined.

(** C6 (as amended).  The witness-mode serialization of scenario 2 is 66
    bytes long: version (4), dummy 0x00, flags 0x01, input count and input
    (1+41), output count and output (1+10), stack count 1, item length 1,
    item 0xAB, locktime (4). *)
Theorem scenario2_witness_serialization :
  vch (SerializeTransaction scenario2 (witness_stream []))
  = [x02; x00; x00; x00]                                    (* version *)
    ++ [x00]                                                (* dummy *)
    ++ [x01]                                                (* flags *)
    ++ [x01]                                                (* input count *)
    ++ (repeat x00 31 ++ [x01]) ++ [x00; x00; x00; x00]     (* outpoint *)
    ++ [x00]                                                (* empty script *)
    ++ [xff; xff; xff; xff]                                 (* sequence *)
    ++ [x01]                                                (* output count *)
    ++ [x00; xf2; x05; x2a; x01; x00; x00; x00]             (* amount *)
    ++ [x01; x51]                                           (* locking script *)
    ++ [x01]                                                (* stack count *)
    ++ [x01]                                                (* item length *)
    ++ [xab]                                                (* item *)
    ++ [x00; x00; x00; x00]                                 (* locktime *)
  /\ length (vch (SerializeTransaction scenario2 (witness_stream []))) = 66%nat
  /\ length (CTxIn_bytes (scenario_txin [[xab]])) = 41%nat
  /\ length (CTxOut_bytes scenario_txout) = 10%nat.
Proof. repeat split; vm_compute; reflexivity. Qed.

(** C6 as stated fails: the serialization is not 67 bytes long. *)
Lemma scenario2_not_67_bytes :
  length (vch (SerializeTransaction scenario2 (witness_stream []))) <> 67%nat.
Proof. vm_compute. discriminate. Qed.

Lemma uint256_IsNull_spec (h : uint256.t) :
  uint256.IsNull h = true <-> forall b, In b h -> b = x00.
Proof.
  unfold uint256.IsNull. rewrite forallb_forall.
  split; intros H b Hb; specialize (H b Hb).
  - apply Z.eqb_eq in H. rewrite <- (byte_of_Z_of_byte b), H. reflexivity.
  - subst b. reflexivity.
Qed.

Lemma COutPoint_IsNull_spec (o : COutPoint.t) :
  COutPoint.IsNull o = true <->
  (forall b, In b (COutPoint.hash o) -> b = x00) /\ COutPoint.n o = 0xFFFFFFFF.
Proof.
  unfold COutPoint.IsNull.
  rewrite andb_true_iff, uint256_IsNull_spec, Z.eqb_eq. reflexivity.
Qed.

(** C7.  [IsCoinBase] is true exactly when the input sequence has one
    element and that element's outpoint has an all-zero hash and index
    0xFFFFFFFF; it is false for any other number of inputs and for a single
    input whose outpoint is not null. *)
Theorem IsCoinBase_spec (tx : CTransaction.t) :
  (CTransaction.IsCoinBase tx = true <->
   exists i, CTransaction.vin tx = [i]
             /\ (forall b, In b (COutPoint.hash (CTxIn.prevout i)) -> b = x00)
             /\ COutPoint.n (CTxIn.prevout i) = 0xFFFFFFFF)
  /\ (length (CTransaction.vin tx) <> 1%nat -> CTransaction.IsCoinBase tx = false)
  /\ (forall i, CTransaction.vin tx = [i] ->
                COutPoint.IsNull (CTxIn.prevout i) = false ->
                CTransaction.IsCoinBase tx = false).
Proof.
  unfold CTransaction.IsCoinBase.
  destruct (CTransaction.vin tx) as [|i [|j v]]; cbn [length Nat.eqb nth].
  - split; [|split].
    + split; [discriminate | intros (i & H & _); discriminate H].
    + reflexivity.
    + intros i H; discriminate H.
  - split; [|split].
    + rewrite COutPoint_IsNull_spec. split.
      * intros H. now exists i.
      * intros (k & [= <-] & H). exact H.
    + intros H; now contradiction H.
    + intros k [= <-] H. exact H.
  - split; [|split].
    + split; [discriminate | intros (k & H & _); discriminate H].
    + reflexivity.
    + intros k H; discriminate H.
Qed.

(** C8.  A default-constructed outpoint has an all-zero 32-byte hash and
    index 0xFFFFFFFF and is null; a default-constructed output has amount -1
    and an empty locking script and is null; and an output is null exactly
    when its amount is -1, whatever its script. *)
Theorem default_null_sentinels :
  COutPoint.hash COutPoint.default = repeat x00 32
  /\ COutPoint.n COutPoint.default = 0xFFFFFFFF
  /\ COutPoint.IsNull COutPoint.default = true
  /\ CTxOut.nValue CTxOut.default = -1
  /\ CTxOut.scriptPubKey CTxOut.default = []
  /\ CTxOut.IsNull CTxOut.default = true
  /\ (forall o, CTxOut.IsNull o = true <-> CTxOut.nValue o = -1)
  /\ (forall v sc1 sc2,
        CTxOut.IsNull (CTxOut.mk v sc1) = CTxOut.IsNull (CTxOut.mk v sc2)).
Proof.
  repeat split; try reflexivity.
  - unfold CTxOut.IsNull. apply Z.eqb_eq.
  - unfold CTxOut.IsNull. apply Z.eqb_eq.
Qed.

(** ** Which failures the readers raise *)

Lemma throws_only_ret {A} P (a : A) : throws_only P (ret a).
Proof. intros s e s' H; discriminate H. Qed.

Lemma throws_only_throw {A} (P : exn -> Prop) e :
  P e -> throws_only P (@throw A e).
Proof. intros HP s e' s' [= <- _]. exact HP. Qed.

Lemma throws_only_bind {A B} P (m : M A) (k : A -> M B) :
  throws_only P m -> (forall a, throws_only P (k a)) ->
  throws_only P (bind m k).
Proof.
  intros Hm Hk s e s'. unfold bind.
  destruct (m s) as [a s1|e1 s1] eqn:E.
  - apply Hk.
  - intros [= <- _]. eapply Hm, E.
Qed.

Lemma throws_only_read k : throws_only stream_failure (read k).
Proof.
  intros s e s'. unfold read.
  destruct (length (vch s) <? k)%nat; [|discriminate].
  intros [= <- _]. now left.
Qed.

Ltac throws_only_step :=
  first
    [ apply throws_only_ret
    | apply throws_only_read
    | apply throws_only_throw; unfold stream_failure; tauto
    | apply throws_only_bind; [|intros ?]
    | match goal with
      | |- throws_only _ (if ?c then _ else _) => destruct c
      | |- throws_only _ (let '(_, _) := ?p in _) => destruct p
      end ].

Lemma throws_only_ser_readdata8 : throws_only stream_failure ser_readdata8.
Proof. unfold ser_readdata8. repeat throws_only_step. Qed.
Lemma throws_only_ser_readdata16 : throws_only stream_failure ser_readdata16.
Proof. unfold ser_readdata16. repeat throws_only_step. Qed.
Lemma throws_only_ser_readdata32 : throws_only stream_failure ser_readdata32.
Proof. unfold ser_readdata32. repeat throws_only_step. Qed.
Lemma throws_only_ser_readdata64 : throws_only stream_failure ser_readdata64.
Proof. unfold ser_readdata64. repeat throws_only_step. Qed.

Lemma throws_only_ReadCompactSize : throws_only stream_failure ReadCompactSize.
Proof.
  unfold ReadCompactSize.
  apply throws_only_bind; [apply throws_only_ser_readdata8 | intros x].
  apply throws_only_bind.
  - destruct (x <? 253); [apply throws_only_ret|].
    destruct (x =? 253);
      [apply throws_only_bind; [apply throws_only_ser_readdata16|]|].
    { intros n; repeat throws_only_step. }
    destruct (x =? 254);
      (apply throws_only_bind;
       [first [apply throws_only_ser_readdata32 | apply throws_only_ser_readdata64]
       | intros n; repeat throws_only_step]).
  - intros n; repeat throws_only_step.
Qed.

Lemma throws_only_Unserialize_elements {T} (d : T) (u : T -> M T) k :
  (forall a, throws_only stream_failure (u a)) ->
  throws_only stream_failure (Unserialize_elements d u k).
Proof.
  intros Hu. induction k as [|k IH]; cbn [Unserialize_elements].
  - apply throws_only_ret.
  - apply throws_only_bind; [apply Hu | intros x].
    apply throws_only_bind; [apply IH | intros r]. apply throws_only_ret.
Qed.

Lemma throws_only_Unserialize_vector {T} (d : T) (u : T -> M T) a :
  (forall a, throws_only stream_failure (u a)) ->
  throws_only stream_failure (Unserialize_vector d u a).
Proof.
  intros Hu. unfold Unserialize_vector.
  apply throws_only_bind; [apply throws_only_ReadCompactSize | intros n].
  now apply throws_only_Unserialize_elements.
Qed.

Lemma throws_only_Unserialize_bytes a :
  throws_only stream_failure (Unserialize_bytes a).
Proof.
  unfold Unserialize_bytes.
  apply throws_only_bind; [apply throws_only_ReadCompactSize | intros n].
  apply throws_only_read.
Qed.

Lemma throws_only_Unserialize_uint32 a :
  throws_only stream_failure (Unserialize_uint32 a).
Proof. apply throws_only_ser_readdata32. Qed.

Lemma throws_only_Unserialize_int32 a :
  throws_only stream_failure (Unserialize_int32 a).
Proof.
  unfold Unserialize_int32.
  apply throws_only_bind; [apply throws_only_ser_readdata32 | intros u].
  apply throws_only_ret.
Qed.

Lemma throws_only_Unserialize_int64 a :
  throws_only stream_failure (Unserialize_int64 a).
Proof.
  unfold Unserialize_int64.
  apply throws_only_bind; [apply throws_only_ser_readdata64 | intros u].
  apply throws_only_ret.
Qed.

Lemma throws_only_COutPoint a :
  throws_only stream_failure (COutPoint.Unserialize a).
Proof.
  unfold COutPoint.Unserialize, uint256.Unserialize.
  apply throws_only_bind; [apply throws_only_read | intros h].
  apply throws_only_bind; [apply throws_only_Unserialize_uint32 | intros x].
  apply throws_only_ret.
Qed.

Lemma throws_only_CTxIn a : throws_only stream_failure (CTxIn.Unserialize a).
Proof.
  unfold CTxIn.Unserialize.
  apply throws_only_bind; [apply throws_only_COutPoint | intros p].
  apply throws_only_bind; [apply throws_only_Unserialize_bytes | intros sc].
  apply throws_only_bind; [apply throws_only_Unserialize_uint32 | intros q].
  apply throws_only_ret.
Qed.

Lemma throws_only_CTxOut a : throws_only stream_failure (CTxOut.Unserialize a).
Proof.
  unfold CTxOut.Unserialize.
  apply throws_only_bind; [apply throws_only_Unserialize_int64 | intros v].
  apply throws_only_bind; [apply throws_only_Unserialize_bytes | intros sc].
  apply throws_only_ret.
Qed.

Lemma throws_only_Unserialize_vin a :
  throws_only stream_failure (Unserialize_vin a).
Proof. apply throws_only_Unserialize_vector, throws_only_CTxIn. Qed.

Lemma throws_only_Unserialize_vout a :
  throws_only stream_failure (Unserialize_vout a).
Proof. apply throws_only_Unserialize_vector, throws_only_CTxOut. Qed.

Lemma throws_only_Unserialize_stack a :
  throws_only stream_failure (CScriptWitness.Unserialize_stack a).
Proof. apply throws_only_Unserialize_vector, throws_only_Unserialize_bytes. Qed.

Lemma throws_only_Unserialize_witnesses v :
  throws_only stream_failure (Unserialize_witnesses v).
Proof.
  induction v as [|i v IH]; cbn [Unserialize_witnesses].
  - apply throws_only_ret.
  - apply throws_only_bind; [apply throws_only_Unserialize_stack | intros st].
    apply throws_only_bind; [apply IH | intros r]. apply throws_only_ret.
Qed.

Lemma throws_only_fields tx :
  throws_only stream_failure (UnserializeTransaction_fields tx).
Proof.
  intros s e s'. unfold UnserializeTransaction_fields. cbv zeta.
  generalize (fAllowWitness_of s). intros allow. revert s e s'.
  match goal with
  | |- forall s e s', ?m s = Throw e s' -> _ =>
      change (throws_only stream_failure m)
  end.
  apply throws_only_bind; [apply throws_only_Unserialize_int32 | intros x].
  apply throws_only_bind; [apply throws_only_Unserialize_vin | intros v].
  apply throws_only_bind.
  - match goal with |- throws_only _ (if ?c then _ else _) => destruct c end.
    + apply throws_only_bind; [apply throws_only_ser_readdata8 | intros f].
      destruct (negb (f =? 0)); [|apply throws_only_ret].
      apply throws_only_bind; [apply throws_only_Unserialize_vin | intros v'].
      apply throws_only_bind; [apply throws_only_Unserialize_vout | intros o].
      apply throws_only_ret.
    + apply throws_only_bind; [apply throws_only_Unserialize_vout | intros o].
      apply throws_only_ret.
  - intros [tx' flags].
    match goal with |- throws_only _ (if ?c then _ else _) => destruct c end.
    + apply throws_only_bind; [apply throws_only_Unserialize_witnesses | intros w].
      apply throws_only_ret.
    + apply throws_only_ret.
Qed.

Lemma stream_failure_known (e : exn) :
  stream_failure e -> e <> unknown_optional_data.
Proof. intros [->|[->| ->]]; discriminate. Qed.

(** ** The target's prior contents *)

(** Case analysis on the next read of a chain of reads. *)
Ltac next_read :=
  first
    [ match goal with
      | |- context [if ?c then _ else _] => destruct c
      end
    | match goal with
      | |- context [match ?m ?s with Ok _ _ => _ | Throw _ _ => _ end] =>
          is_var s; destruct (m s) as [? ?|? ?]
      end ];
  cbv beta iota;
  cbn [CMutableTransaction.vin CMutableTransaction.vout
       CMutableTransaction.nVersion CMutableTransaction.nLockTime
       CMutableTransaction.set_vin CMutableTransaction.set_vout
       CMutableTransaction.set_nVersion CMutableTransaction.set_nLockTime].

(** The value view of the decoder, the transaction decoded and the stream
    after it or the failure raised, is the same for any two targets. *)
Lemma UnserializeTransaction_target_irrelevant
  (tx1 tx2 : CMutableTransaction.t) (s : Stream) :
  UnserializeTransaction tx1 s = UnserializeTransaction tx2 s.
Proof.
  unfold UnserializeTransaction, UnserializeTransaction_fields.
  cbv zeta.
  unfold Unserialize_int32, Unserialize_vin, Unserialize_vout,
    Unserialize_vector, Unserialize_uchar, Unserialize_uint32.
  cbn [CMutableTransaction.vin CMutableTransaction.vout
       CMutableTransaction.nVersion CMutableTransaction.nLockTime
       CMutableTransaction.set_vin CMutableTransaction.set_vout
       CMutableTransaction.set_nVersion CMutableTransaction.set_nLockTime].
  unfold bind, ret, throw.
  repeat (next_read; try reflexivity).
Qed.

(** ** What a successful read consumed *)

Lemma read_Ok k s bs s' :
  read k s = Ok bs s' -> vch s = bs ++ vch s' /\ length bs = k.
Proof.
  unfold read. destruct (Nat.ltb_spec (length (vch s)) k) as [Hlt|Hge];
    [discriminate|].
  intros [= <- <-]. cbn [vch set_vch]. split.
  - symmetry. apply firstn_skipn.
  - apply firstn_length_le. exact Hge.
Qed.

Lemma ser_readdata8_Ok s x s' :
  ser_readdata8 s = Ok x s' -> exists b, vch s = b :: vch s' /\ x = Z_of_byte b.
Proof.
  unfold ser_readdata8, bind, ret.
  destruct (read 1 s) as [bs s1|e s1] eqn:E; [|discriminate].
  intros [= <- <-]. apply read_Ok in E as [Hv Hl].
  destruct bs as [|b [|c bs]]; try discriminate Hl.
  exists b. split; [exact Hv|]. cbn [le_value]. lia.
Qed.

Lemma le_value_nonneg bs : 0 <= le_value bs.
Proof.
  induction bs as [|b bs IH]; cbn [le_value]; [lia|].
  pose proof (Z_of_byte_range b). lia.
Qed.

Lemma ReadCompactSize_zero s s' :
  ReadCompactSize s = Ok 0 s' -> vch s = x00 :: vch s'.
Proof.
  unfold ReadCompactSize. unfold bind at 1.
  destruct (ser_readdata8 s) as [c s1|e s1] eqn:E; [|discriminate].
  apply ser_readdata8_Ok in E as (b & Hv & ->).
  unfold bind at 1.
  destruct (Z.ltb_spec (Z_of_byte b) 253) as [Hlt|Hge].
  - unfold ret at 1.
    destruct (Z_of_byte b >? MAX_SIZE); [discriminate|].
    intros [= Hb <-]. rewrite Hv. f_equal.
    rewrite <- (byte_of_Z_of_byte b), Hb. reflexivity.
  - intros H. exfalso. revert H.
    destruct (Z_of_byte b =? 253).
    { unfold bind. destruct (ser_readdata16 s1) as [n s2|e s2]; [|discriminate].
      destruct (Z.ltb_spec n 253); [discriminate|]. unfold ret.
      destruct (n >? MAX_SIZE); [discriminate|]. intros [= -> _]. lia. }
    destruct (Z_of_byte b =? 254).
    { unfold bind. destruct (ser_readdata32 s1) as [n s2|e s2]; [|discriminate].
      destruct (Z.ltb_spec n 0x10000); [discriminate|]. unfold ret.
      destruct (n >? MAX_SIZE); [discriminate|]. intros [= -> _]. lia. }
    unfold bind. destruct (ser_readdata64 s1) as [n s2|e s2]; [|discriminate].
    destruct (Z.ltb_spec n 0x100000000); [discriminate|]. unfold ret.
    destruct (n >? MAX_SIZE); [discriminate|]. intros [= -> _]. lia.
Qed.

Lemma ReadCompactSize_nonneg s n s' : ReadCompactSize s = Ok n s' -> 0 <= n.
Proof.
  unfold ReadCompactSize, ser_readdata8, ser_readdata16, ser_readdata32,
    ser_readdata64, bind, ret, throw.
  destruct (read 1 s) as [bs s1|e s1]; [|discriminate].
  pose proof (le_value_nonneg bs).
  destruct (le_value bs <? 253).
  { destruct (le_value bs >? MAX_SIZE); [discriminate|]. intros [= <- _]. lia. }
  destruct (le_value bs =? 253).
  { destruct (read 2 s1) as [bs2 s2|e s2]; [|discriminate].
    pose proof (le_value_nonneg bs2).
    destruct (le_value bs2 <? 253); [discriminate|].
    destruct (le_value bs2 >? MAX_SIZE); [discriminate|]. intros [= <- _]. lia. }
  destruct (le_value bs =? 254).
  { destruct (read 4 s1) as [bs2 s2|e s2]; [|discriminate].
    pose proof (le_value_nonneg bs2).
    destruct (le_value bs2 <? 65536); [discriminate|].
    destruct (le_value bs2 >? MAX_SIZE); [discriminate|]. intros [= <- _]. lia. }
  destruct (read 8 s1) as [bs2 s2|e s2]; [|discriminate].
  pose proof (le_value_nonneg bs2).
  destruct (le_value bs2 <? 4294967296); [discriminate|].
  destruct (le_value bs2 >? MAX_SIZE); [discriminate|]. intros [= <- _]. lia.
Qed.

Lemma Unserialize_elements_length {T} (d : T) (u : T -> M T) k s v s' :
  Unserialize_elements d u k s = Ok v s' -> length v = k.
Proof.
  revert s v s'. induction k as [|k IH]; intros s v s';
    cbn [Unserialize_elements].
  - intros [= <- _]. reflexivity.
  - unfold bind at 1. destruct (u d s) as [x s1|e s1]; [|discriminate].
    unfold bind at 1.
    destruct (Unserialize_elements d u k s1) as [r s2|e s2] eqn:E; [|discriminate].
    intros [= <- _]. cbn [length]. f_equal. eapply IH, E.
Qed.

Lemma Unserialize_vector_empty {T} (d : T) (u : T -> M T) a s s' :
  Unserialize_vector d u a s = Ok [] s' -> vch s = x00 :: vch s'.
Proof.
  unfold Unserialize_vector, bind.
  destruct (ReadCompactSize s) as [n s1|e s1] eqn:E; [|discriminate].
  intros H. pose proof (Unserialize_elements_length _ _ _ _ _ _ H) as Hl.
  pose proof (ReadCompactSize_nonneg _ _ _ E) as Hn.
  assert (n = 0) by (cbn [length] in Hl; lia). subst n.
  cbn [Z.to_nat Unserialize_elements] in H. unfold ret in H.
  injection H as <-. now apply ReadCompactSize_zero.
Qed.

Ltac next_read_eqn :=
  first
    [ match goal with
      | |- context [if ?c then _ else _] => destruct c eqn:?
      end
    | match goal with
      | |- context [match ?m ?s with Ok _ _ => _ | Throw _ _ => _ end] =>
          is_var s; destruct (m s) as [? ?|? ?] eqn:?
      end ];
  cbv beta iota;
  cbn [CMutableTransaction.vin CMutableTransaction.vout
       CMutableTransaction.nVersion CMutableTransaction.nLockTime
       CMutableTransaction.set_vin CMutableTransaction.set_vout
       CMutableTransaction.set_nVersion CMutableTransaction.set_nLockTime].

Lemma clear_bit0 (b : byte) :
  (Z.land (Z_of_byte b) 1 =? 0) = false ->
  Z.land (Z.lxor (Z_of_byte b) 1) 1 = 0.
Proof. destruct b; vm_compute; congruence. Qed.

Lemma fields_flags tx s tx' flags s' :
  UnserializeTransaction_fields tx s = Ok (tx', flags) s' ->
  Z.land flags 1 = 0
  /\ (flags <> 0 ->
      fAllowWitness_of s = true
      /\ exists v f rest,
           vch s = v ++ x00 :: f :: rest /\ length v = 4%nat
           /\ flags = if negb (Z.land (Z_of_byte f) 1 =? 0)
                      then Z.lxor (Z_of_byte f) 1 else Z_of_byte f).
Proof.
  unfold UnserializeTransaction_fields. cbv zeta.
  unfold Unserialize_int32, ser_readdata32, Unserialize_uchar.
  unfold bind, ret.
  cbn [CMutableTransaction.vin CMutableTransaction.vout
       CMutableTransaction.nVersion CMutableTransaction.nLockTime
       CMutableTransaction.set_vin CMutableTransaction.set_vout
       CMutableTransaction.set_nVersion CMutableTransaction.set_nLockTime].
  repeat next_read_eqn; try discriminate.
  all: intros [= <- <- <-].
  all: try (split; [reflexivity | intros F; now contradiction F]).
  all: match goal with
       | H : (length ?v =? 0)%nat && _ = true |- _ =>
           apply andb_true_iff in H as [Hlen Hallow];
           apply Nat.eqb_eq in Hlen; destruct v; [|discriminate Hlen]
       end.
  all: match goal with
       | H : Unserialize_vin _ _ = Ok [] _ |- _ =>
           apply Unserialize_vector_empty in H; rename H into Hdummy
       end.
  all: match goal with
       | H : ser_readdata8 _ = Ok _ _ |- _ =>
           apply ser_readdata8_Ok in H as (b & Hb & ->)
       end.
  all: match goal with
       | H : read 4 _ = Ok _ _ |- _ => apply read_Ok in H as [Hv Hl]
       end.
  all: rewrite Hallow in *; rewrite ?andb_true_r in *.
  all: repeat match goal with
       | H : negb _ = true |- _ => apply negb_true_iff in H
       | H : negb _ = false |- _ => apply negb_false_iff in H
       end.
  all: try match goal with
       | H : (Z_of_byte _ =? 0) = true |- _ => apply Z.eqb_eq in H; rewrite H in *
       end.
  all: try discriminate.
  all: try (split; [reflexivity | intros F; now contradiction F]).
  - split; [now apply clear_bit0|]. intros _. split; [reflexivity|].
    exists a, b, (vch s2). rewrite Hv, Hdummy, Hb.
    repeat split; [exact Hl|].
    match goal with H : (Z.land _ 1 =? 0) = false |- _ => rewrite H end.
    reflexivity.
  - match goal with H : (Z.land _ 1 =? 0) = true |- _ =>
      pose proof H as Hbit; apply Z.eqb_eq in Hbit end.
    split; [exact Hbit|]. intros _. split; [reflexivity|].
    exists a, b, (vch s2). rewrite Hv, Hdummy, Hb.
    repeat split; [exact Hl|].
    match goal with H : (Z.land _ 1 =? 0) = true |- _ => rewrite H end.
    reflexivity.
Qed.

Lemma unknown_optional_data_iff (tx : CMutableTransaction.t) (s s' : Stream) :
  UnserializeTransaction tx s = Throw unknown_optional_data s' <->
  exists tx' flags,
    UnserializeTransaction_fields tx s = Ok (tx', flags) s' /\ flags <> 0.
Proof.
  unfold UnserializeTransaction, bind.
  destruct (UnserializeTransaction_fields tx s) as [[tx' flags] s1|e s1] eqn:E.
  - destruct (Z.eqb_spec flags 0) as [F|F]; cbn [negb].
    + split.
      * destruct (Unserialize_uint32 (CMutableTransaction.nLockTime tx') s1)
          as [x s2|e s2] eqn:El; [discriminate|].
        intros [= -> _]. apply throws_only_Unserialize_uint32 in El.
        now apply stream_failure_known in El.
      * intros (t & f & [= _ <- _] & Hf). now contradiction Hf.
    + unfold throw. split.
      * intros [= <-]. now exists tx', flags.
      * intros (t & f & [= _ _ <-] & _). reflexivity.
  - split.
    + intros [= -> _]. apply throws_only_fields in E.
      now apply stream_failure_known in E.
    + intros (t & f & H & _). discriminate H.
Qed.

Lemma UnserializeTransaction_failures (tx : CMutableTransaction.t) (s : Stream) e s' :
  UnserializeTransaction tx s = Throw e s' ->
  e = unknown_optional_data \/ stream_failure e.
Proof.
  unfold UnserializeTransaction, bind.
  destruct (UnserializeTransaction_fields tx s) as [[tx' flags] s1|e1 s1] eqn:E.
  - destruct (negb (flags =? 0)).
    + intros [= <- _]. now left.
    + destruct (Unserialize_uint32 (CMutableTransaction.nLockTime tx') s1)
        as [x s2|e2 s2] eqn:El; [discriminate|].
      intros [= <- _]. right. eapply throws_only_Unserialize_uint32, El.
  - intros [= <- _]. right. eapply throws_only_fields, E.
Qed.

(** An encoding with flags byte 2 and no locktime at all: the failure is the
    unknown-optional-data one, raised with nothing left to read. *)
Example unknown_optional_data_before_locktime :
  UnserializeTransaction scenario1
    (witness_stream [x02; x00; x00; x00; x00; x02; x00; x00])
  = Throw unknown_optional_data (witness_stream []).
Proof. vm_compute. reflexivity. Qed.

(** C9.  On a stream whose version has [SERIALIZE_TRANSACTION_NO_WITNESS]
    set, [UnserializeTransaction] is the basic-format decoder (version,
    inputs, outputs, locktime; no flags byte is read), [flags] is 0 at the
    check, "Unknown transaction optional data" is never raised, and any
    failure is one of the stream's. *)
Theorem UnserializeTransaction_no_witness_mode
  (tx : CMutableTransaction.t) (s : Stream) :
  fAllowWitness_of s = false ->
  UnserializeTransaction tx s = Unserialize_basic_format s
  /\ (forall tx' flags s',
        UnserializeTransaction_fields tx s = Ok (tx', flags) s' -> flags = 0)
  /\ (forall s', UnserializeTransaction tx s <> Throw unknown_optional_data s')
  /\ (forall e s', UnserializeTransaction tx s = Throw e s' -> stream_failure e).
Proof.
  intros Hno.
  assert (Hflags : forall tx' flags s',
             UnserializeTransaction_fields tx s = Ok (tx', flags) s' -> flags = 0).
  { intros tx' flags s' H. apply fields_flags in H as [_ H].
    destruct (Z.eq_dec flags 0) as [F|F]; [exact F|].
    apply H in F as [Ha _]. congruence. }
  assert (Hnever : forall s',
             UnserializeTransaction tx s <> Throw unknown_optional_data s').
  { intros s' H.
    apply unknown_optional_data_iff in H as (tx' & flags & Hf & Hne).
    apply Hne. eapply Hflags, Hf. }
  split; [|split; [exact Hflags|split; [exact Hnever|]]].
  - unfold UnserializeTransaction, UnserializeTransaction_fields,
      Unserialize_basic_format.
    unfold Unserialize_int32, Unserialize_vin, Unserialize_vout,
      Unserialize_vector, Unserialize_uchar, Unserialize_uint32.
    unfold bind, ret, throw. cbv beta zeta. rewrite Hno.
    cbn [CMutableTransaction.vin CMutableTransaction.vout
         CMutableTransaction.nVersion CMutableTransaction.nLockTime
         CMutableTransaction.set_vin CMutableTransaction.set_vout
         CMutableTransaction.set_nVersion CMutableTransaction.set_nLockTime].
    repeat (next_read; rewrite ?andb_false_r; try reflexivity).
  - intros e s' H.
    destruct (UnserializeTransaction_failures tx s e s' H) as [->|Hs];
      [|exact Hs].
    now apply Hnever in H.
Qed.

Lemma UnserializeTransaction_no_witness_mode_witness :
  UnserializeTransaction scenario2
    (legacy_stream [x02; x00; x00; x00; x00; x02; x00; x00])
  <> Throw unknown_optional_data (legacy_stream []).
Proof.
  apply (UnserializeTransaction_no_witness_mode scenario2
           (legacy_stream [x02; x00; x00; x00; x00; x02; x00; x00])).
  reflexivity.
Defined.

(** ** Identity hash and witness hash *)

Lemma SerializeTransaction_CTransaction_of `{HashFunction}
  (tx : CMutableTransaction.t) (s : Stream) :
  SerializeTransaction (CTransaction_of tx) s = SerializeTransaction tx s.
Proof. reflexivity. Qed.

Lemma legacy_bytes_without_witness (tx : CMutableTransaction.t) :
  legacy_bytes (without_witness tx) = legacy_bytes tx.
Proof.
  unfold legacy_bytes, without_witness, vector_bytes.
  cbn [CMutableTransaction.vin CMutableTransaction.vout
       CMutableTransaction.nVersion CMutableTransaction.nLockTime
       CMutableTransaction.set_vin].
  rewrite length_map, map_map. reflexivity.
Qed.

(** ** The witness section determines the witness stacks *)

Lemma app_same_length {A} (a b r r' : list A) :
  length a = length b -> a ++ r = b ++ r' -> a = b /\ r = r'.
Proof.
  revert b; induction a as [|x a IH]; intros [|y b] Hl; try discriminate Hl.
  - cbn. auto.
  - cbn [app]. intros [= -> H]. injection Hl as Hl.
    destruct (IH b Hl H) as [-> ->]. auto.
Qed.

Lemma le_bytes_inj (w : nat) (a b : Z) :
  0 <= a < 2 ^ (8 * Z.of_nat w) -> 0 <= b < 2 ^ (8 * Z.of_nat w) ->
  le_bytes w a = le_bytes w b -> a = b.
Proof.
  intros Ha Hb H. apply (f_equal le_value) in H.
  rewrite !le_value_le_bytes, !Z.mod_small in H; assumption.
Qed.

Lemma le_bytes_split (w : nat) (a b : Z) (r r' : list byte) :
  0 <= a < 2 ^ (8 * Z.of_nat w) -> 0 <= b < 2 ^ (8 * Z.of_nat w) ->
  le_bytes w a ++ r = le_bytes w b ++ r' -> a = b /\ r = r'.
Proof.
  intros Ha Hb H.
  apply app_same_length in H as [H ->]; [|now rewrite !le_bytes_length].
  split; [eapply le_bytes_inj; eassumption | reflexivity].
Qed.

Lemma CompactSize_bytes_split (n m : Z) (r r' : list byte) :
  0 <= n < 2 ^ 64 -> 0 <= m < 2 ^ 64 ->
  CompactSize_bytes n ++ r = CompactSize_bytes m ++ r' -> n = m /\ r = r'.
Proof.
  intros Hn Hm. unfold CompactSize_bytes.
  destruct (Z.ltb_spec n 253); [|destruct (Z.leb_spec n 65535);
                                  [|destruct (Z.leb_spec n 4294967295)]];
  (destruct (Z.ltb_spec m 253); [|destruct (Z.leb_spec m 65535);
                                   [|destruct (Z.leb_spec m 4294967295)]]);
  rewrite <- ?app_assoc; intros Heq;
  apply (le_bytes_split 1) in Heq as [Etag Erest];
  try (change (8 * Z.of_nat 1) with 8; change (2 ^ 8) with 256; lia);
  try (exfalso; lia).
  - auto.
  - apply (le_bytes_split 2) in Erest; [exact Erest | |];
      change (8 * Z.of_nat 2) with 16; change (2 ^ 16) with 65536; lia.
  - apply (le_bytes_split 4) in Erest; [exact Erest | |];
      change (8 * Z.of_nat 4) with 32; change (2 ^ 32) with 4294967296; lia.
  - apply (le_bytes_split 8) in Erest; [exact Erest | |];
      change (8 * Z.of_nat 8) with 64; lia.
Qed.

Lemma fits_size_t_spec {T} (v : list T) :
  fits_size_t v = true <-> 0 <= Z.of_nat (length v) < 2 ^ 64.
Proof. unfold fits_size_t. rewrite Z.ltb_lt. lia. Qed.

Lemma bytes_bytes_split (a b r r' : list byte) :
  fits_size_t a = true -> fits_size_t b = true ->
  bytes_bytes a ++ r = bytes_bytes b ++ r' -> a = b /\ r = r'.
Proof.
  intros Ha%fits_size_t_spec Hb%fits_size_t_spec. unfold bytes_bytes.
  rewrite <- !app_assoc. intros H.
  apply CompactSize_bytes_split in H as [Hl H]; [|assumption|assumption].
  apply app_same_length in H; [exact H | lia].
Qed.

Section ConcatSplit.
Context {T : Type}.
Variable f : T -> list byte.
Variable ok : T -> bool.
Hypothesis f_split : forall x y r r',
  ok x = true -> ok y = true -> f x ++ r = f y ++ r' -> x = y /\ r = r'.

Lemma concat_map_split (l1 l2 : list T) (r r' : list byte) :
  length l1 = length l2 ->
  forallb ok l1 = true -> forallb ok l2 = true ->
  concat (map f l1) ++ r = concat (map f l2) ++ r' -> l1 = l2 /\ r = r'.
Proof.
  revert l2; induction l1 as [|x l1 IH]; intros [|y l2] Hl; try discriminate Hl.
  - cbn. auto.
  - cbn [forallb map concat].
    intros [Hx H1]%andb_true_iff [Hy H2]%andb_true_iff.
    rewrite <- !app_assoc. intros H.
    apply f_split in H as [-> H]; [|assumption|assumption].
    injection Hl as Hl. destruct (IH l2 Hl H1 H2 H) as [-> ->]. auto.
Qed.

Lemma vector_bytes_split (l1 l2 : list T) (r r' : list byte) :
  fits_size_t l1 = true -> fits_size_t l2 = true ->
  forallb ok l1 = true -> forallb ok l2 = true ->
  vector_bytes f l1 ++ r = vector_bytes f l2 ++ r' -> l1 = l2 /\ r = r'.
Proof.
  intros Ha%fits_size_t_spec Hb%fits_size_t_spec H1 H2. unfold vector_bytes.
  rewrite <- !app_assoc. intros H.
  apply CompactSize_bytes_split in H as [Hl H]; [|assumption|assumption].
  apply concat_map_split in H; [exact H | lia | assumption | assumption].
Qed.
End ConcatSplit.

Lemma stack_bytes_split (a b : list (list byte)) (r r' : list byte) :
  stack_fits a = true -> stack_fits b = true ->
  stack_bytes a ++ r = stack_bytes b ++ r' -> a = b /\ r = r'.
Proof.
  unfold stack_fits. intros [Ha Ha']%andb_true_iff [Hb Hb']%andb_true_iff.
  apply (vector_bytes_split bytes_bytes fits_size_t); try assumption.
  intros x y s s'. apply bytes_bytes_split.
Qed.

Lemma witness_fits_stacks (tx : CMutableTransaction.t) :
  witness_fits tx = true ->
  forallb stack_fits (witness_stacks (CMutableTransaction.vin tx)) = true.
Proof.
  unfold witness_fits, witness_stacks.
  induction (CMutableTransaction.vin tx) as [|i v IH]; [reflexivity|].
  cbn [forallb map]. intros [Hi Hv]%andb_true_iff.
  rewrite Hi, IH by exact Hv. reflexivity.
Qed.

Lemma witnesses_bytes_split (v1 v2 : list CTxIn.t) (r r' : list byte) :
  length v1 = length v2 ->
  forallb stack_fits (witness_stacks v1) = true ->
  forallb stack_fits (witness_stacks v2) = true ->
  witnesses_bytes v1 ++ r = witnesses_bytes v2 ++ r' ->
  witness_stacks v1 = witness_stacks v2 /\ r = r'.
Proof.
  intros Hl H1 H2 H.
  apply (concat_map_split stack_bytes stack_fits stack_bytes_split
           (witness_stacks v1) (witness_stacks v2)); try assumption.
  - unfold witness_stacks. now rewrite !length_map.
  - unfold witness_stacks. rewrite !map_map. exact H.
Qed.

Lemma same_inputs (v1 v2 : list CTxIn.t) :
  map (fun i => CTxIn.set_stack i []) v1 = map (fun i => CTxIn.set_stack i []) v2 ->
  witness_stacks v1 = witness_stacks v2 -> v1 = v2.
Proof.
  revert v2; induction v1 as [|i v1 IH]; intros [|j v2];
    try discriminate; [reflexivity|].
  destruct i as [p s q [st]], j as [p' s' q' [st']].
  intros E1 E2. injection E1 as -> -> -> Hv. injection E2 as -> Hw.
  f_equal. now apply IH.
Qed.

Lemma CompactSize_bytes_head (n : Z) :
  1 <= n -> exists b l, CompactSize_bytes n = b :: l /\ b <> x00.
Proof.
  intros Hn. unfold CompactSize_bytes.
  destruct (Z.ltb_spec n 253);
    [|destruct (n <=? 65535); [|destruct (n <=? 4294967295)]];
    cbn [le_bytes app]; eexists _, _; (split; [reflexivity|]);
    try discriminate.
  intros Hb. apply (f_equal Z_of_byte) in Hb. rewrite Z_of_byte_of_Z in Hb.
  rewrite Z.mod_small in Hb by lia. change (Z_of_byte x00) with 0 in Hb. lia.
Qed.

Lemma extended_not_legacy (v : list CTxIn.t) (r r' : list byte) :
  v <> [] -> CompactSize_bytes 0 ++ r <> vector_bytes CTxIn_bytes v ++ r'.
Proof.
  intros Hv. destruct v as [|i v]; [contradiction|]. unfold vector_bytes.
  destruct (CompactSize_bytes_head (Z.of_nat (length (i :: v))))
    as (b & l & E & Hb); [cbn [length]; lia|].
  rewrite E. change (CompactSize_bytes 0) with [x00]. cbn [app].
  intros [= Hx _]. congruence.
Qed.

Lemma HasWitness_inputs (tx : CMutableTransaction.t) :
  CMutableTransaction.HasWitness tx = true -> CMutableTransaction.vin tx <> [].
Proof.
  unfold CMutableTransaction.HasWitness. intros W E. rewrite E in W.
  discriminate W.
Qed.

(** Two transactions that agree outside their witness stacks and are
    written the same in witness mode are the same transaction. *)
Lemma witness_serialization_determines (tx1 tx2 : CMutableTransaction.t) :
  witness_fits tx1 = true -> witness_fits tx2 = true ->
  without_witness tx1 = without_witness tx2 ->
  vch (SerializeTransaction tx1 (witness_stream []))
  = vch (SerializeTransaction tx2 (witness_stream [])) ->
  tx1 = tx2.
Proof.
  intros Hf1 Hf2 Hcore.
  pose proof (f_equal CMutableTransaction.vin Hcore) as Hvin.
  pose proof (f_equal CMutableTransaction.vout Hcore) as Hvout.
  pose proof (f_equal CMutableTransaction.nVersion Hcore) as Hver.
  pose proof (f_equal CMutableTransaction.nLockTime Hcore) as Hlock.
  unfold without_witness in Hvin, Hvout, Hver, Hlock.
  cbn [CMutableTransaction.vin CMutableTransaction.vout
       CMutableTransaction.nVersion CMutableTransaction.nLockTime
       CMutableTransaction.set_vin] in Hvin, Hvout, Hver, Hlock.
  assert (Hlen : length (CMutableTransaction.vin tx1)
                 = length (CMutableTransaction.vin tx2)).
  { apply (f_equal (@length _)) in Hvin. now rewrite !length_map in Hvin. }
  assert (Hbytes : vector_bytes CTxIn_bytes (CMutableTransaction.vin tx1)
                   = vector_bytes CTxIn_bytes (CMutableTransaction.vin tx2)).
  { apply (f_equal (vector_bytes CTxIn_bytes)) in Hvin.
    unfold vector_bytes in *. rewrite !length_map, !map_map in Hvin. exact Hvin. }
  assert (Hstacks : witness_stacks (CMutableTransaction.vin tx1)
                    = witness_stacks (CMutableTransaction.vin tx2) -> tx1 = tx2).
  { intros Hs. pose proof (same_inputs _ _ Hvin Hs) as Hv.
    destruct tx1, tx2. cbn in *. congruence. }
  rewrite !SerializeTransaction_bytes.
  change (fAllowWitness_of (witness_stream [])) with true. cbn [andb].
  unfold write, set_vch. cbn [vch witness_stream app].
  destruct (CMutableTransaction.HasWitness tx1) eqn:W1;
    destruct (CMutableTransaction.HasWitness tx2) eqn:W2.
  - unfold extended_bytes. rewrite Hver, Hbytes, Hvout. intros H.
    repeat apply app_inv_head in H.
    apply witnesses_bytes_split in H as [Hs _];
      auto using witness_fits_stacks.
  - unfold extended_bytes, legacy_bytes. rewrite Hver. intros H.
    apply app_inv_head in H. exfalso. revert H. apply extended_not_legacy.
    intros E. apply (HasWitness_inputs tx1 W1).
    rewrite E in Hlen. now apply length_zero_iff_nil.
  - unfold extended_bytes, legacy_bytes. rewrite Hver. intros H.
    apply app_inv_head in H. symmetry in H. exfalso. revert H.
    apply extended_not_legacy.
    intros E. apply (HasWitness_inputs tx2 W2).
    rewrite E in Hlen. symmetry in Hlen. now apply length_zero_iff_nil.
  - intros _. apply HasWitness_false_without in W1, W2. congruence.
Qed.



(** * Further properties of the header *)

(** ** Comparison operators *)

Lemma Z_of_byte_inj (x y : byte) : Z_of_byte x = Z_of_byte y -> x = y.
Proof.
  intros H. rewrite <- (byte_of_Z_of_byte x), <- (byte_of_Z_of_byte y), H.
  reflexivity.
Qed.

Lemma Compare_refl (h : uint256.t) : uint256.Compare h h = 0.
Proof.
  induction h as [|x h IH]; [reflexivity|].
  cbn [uint256.Compare]. now rewrite Z.ltb_irrefl.
Qed.

Lemma Compare_values (a b : uint256.t) :
  uint256.Compare a b = -1 \/ uint256.Compare a b = 0 \/ uint256.Compare a b = 1.
Proof.
  revert b; induction a as [|x a IH]; intros [|y b]; cbn [uint256.Compare];
    try tauto.
  destruct (Z_of_byte x <? Z_of_byte y); [tauto|].
  destruct (Z_of_byte y <? Z_of_byte x); [tauto|]. apply IH.
Qed.

Lemma Compare_swap (a b : uint256.t) :
  uint256.Compare b a = - uint256.Compare a b.
Proof.
  revert b; induction a as [|x a IH]; intros [|y b]; cbn [uint256.Compare];
    try reflexivity.
  destruct (Z.ltb_spec (Z_of_byte x) (Z_of_byte y)) as [H1|H1];
    destruct (Z.ltb_spec (Z_of_byte y) (Z_of_byte x)) as [H2|H2];
    try reflexivity; try lia.
  apply IH.
Qed.

Lemma Compare_zero (a b : uint256.t) :
  length a = length b -> uint256.Compare a b = 0 -> a = b.
Proof.
  revert b; induction a as [|x a IH]; intros [|y b] Hl; try discriminate Hl.
  - reflexivity.
  - cbn [uint256.Compare].
    destruct (Z.ltb_spec (Z_of_byte x) (Z_of_byte y)) as [H1|H1]; [discriminate|].
    destruct (Z.ltb_spec (Z_of_byte y) (Z_of_byte x)) as [H2|H2]; [discriminate|].
    intros H. f_equal.
    + apply Z_of_byte_inj. lia.
    + apply IH; [now injection Hl | exact H].
Qed.

Lemma Compare_lt_trans (a b c : uint256.t) :
  uint256.Compare a b < 0 -> uint256.Compare b c < 0 -> uint256.Compare a c < 0.
Proof.
  revert b c; induction a as [|x a IH]; intros [|y b] [|z c];
    cbn [uint256.Compare]; try lia.
  destruct (Z.ltb_spec (Z_of_byte x) (Z_of_byte y)) as [H1|H1];
    destruct (Z.ltb_spec (Z_of_byte y) (Z_of_byte x)) as [H2|H2]; try lia;
    destruct (Z.ltb_spec (Z_of_byte y) (Z_of_byte z)) as [H3|H3];
    destruct (Z.ltb_spec (Z_of_byte z) (Z_of_byte y)) as [H4|H4]; try lia;
    destruct (Z.ltb_spec (Z_of_byte x) (Z_of_byte z)) as [H5|H5];
    destruct (Z.ltb_spec (Z_of_byte z) (Z_of_byte x)) as [H6|H6]; try lia.
  apply IH.
Qed.

Lemma uint256_operator_eq_spec (a b : uint256.t) :
  length a = length b -> (uint256.operator_eq a b = true <-> a = b).
Proof.
  intros Hl. unfold uint256.operator_eq. rewrite Z.eqb_eq. split.
  - now apply Compare_zero.
  - intros ->. apply Compare_refl.
Qed.

Lemma CScript_operator_eq_spec (a b : CScript) :
  CScript_operator_eq a b = true <-> a = b.
Proof.
  revert b; induction a as [|x a IH]; intros [|y b]; cbn [CScript_operator_eq];
    try (split; [discriminate | intros H; discriminate H]).
  - split; reflexivity.
  - rewrite andb_true_iff, IH. split.
    + intros [Hx ->]. now rewrite (Byte.byte_dec_bl _ _ Hx).
    + intros [= -> ->]. split; [now apply Byte.byte_dec_lb | reflexivity].
Qed.

Ltac cmp_cases :=
  repeat match goal with
         | |- context [?x <? ?y] => destruct (Z.ltb_spec x y)
         | |- context [?x =? ?y] => destruct (Z.eqb_spec x y)
         end;
  cbn [orb andb]; intros; first [reflexivity | discriminate | lia].

Lemma COutPoint_operator_eq_fields (a b : COutPoint.t) :
  length (COutPoint.hash a) = length (COutPoint.hash b) ->
  (COutPoint.operator_eq a b = true <-> a = b)
  /\ (COutPoint.operator_ne a b = true <-> a <> b).
Proof.
  intros Hl.
  assert (Heq : COutPoint.operator_eq a b = true <-> a = b).
  { unfold COutPoint.operator_eq.
    rewrite andb_true_iff, (uint256_operator_eq_spec _ _ Hl), Z.eqb_eq.
    destruct a as [ha na], b as [hb nb]. cbn [COutPoint.hash COutPoint.n].
    split; [intros [-> ->]; reflexivity | intros [= -> ->]; tauto]. }
  split; [exact Heq|].
  unfold COutPoint.operator_ne. rewrite negb_true_iff, <- Heq.
  destruct (COutPoint.operator_eq a b); split; congruence.
Qed.

(** X1.  [operator==] on outpoints with hashes of the same width holds
    exactly for equal outpoints, and [operator!=] is its negation. *)
Theorem COutPoint_operator_eq_spec (a b : COutPoint.t) :
  length (COutPoint.hash a) = length (COutPoint.hash b) ->
  (COutPoint.operator_eq a b = true <-> a = b)
  /\ (COutPoint.operator_ne a b = true <-> a <> b).
Proof. apply COutPoint_operator_eq_fields. Qed.

Lemma COutPoint_operator_eq_spec_witness :
  COutPoint.operator_ne (COutPoint.mk scenario_hash 5)
                        (COutPoint.mk scenario_hash 7) = true
  <-> COutPoint.mk scenario_hash 5 <> COutPoint.mk scenario_hash 7.
Proof.
  apply (COutPoint_operator_eq_spec (COutPoint.mk scenario_hash 5)
                                    (COutPoint.mk scenario_hash 7)).
  reflexivity.
Defined.

(** X2.  [operator<] on outpoints with hashes of the same width is a strict
    total order that agrees with [operator==]: it is irreflexive and
    transitive, exactly one of [a < b], [a == b], [b < a] holds, and the
    hash decides before the index does. *)
Theorem COutPoint_operator_lt_strict_total_order (a b c : COutPoint.t) :
  length (COutPoint.hash a) = length (COutPoint.hash b) ->
  length (COutPoint.hash b) = length (COutPoint.hash c) ->
  COutPoint.operator_lt a a = false
  /\ (COutPoint.operator_lt a b = true -> COutPoint.operator_lt b c = true ->
      COutPoint.operator_lt a c = true)
  /\ (COutPoint.operator_lt a b = true -> COutPoint.operator_lt b a = false)
  /\ (COutPoint.operator_lt a b = false -> COutPoint.operator_lt b a = false ->
      COutPoint.operator_eq a b = true)
  /\ (COutPoint.operator_eq a b = true -> COutPoint.operator_lt a b = false)
  /\ (uint256.Compare (COutPoint.hash a) (COutPoint.hash b) < 0 ->
      COutPoint.operator_lt a b = true).
Proof.
  intros Hab Hbc.
  unfold COutPoint.operator_lt, COutPoint.operator_eq, uint256.operator_eq.
  cbv zeta.
  destruct a as [ha na], b as [hb nb], c as [hc nc].
  cbn [COutPoint.hash COutPoint.n] in *.
  pose proof (Compare_swap ha hb) as Sab.
  pose proof (Compare_values ha hb) as Vab.
  pose proof (Compare_values hb hc) as Vbc.
  pose proof (Compare_values ha hc) as Vac.
  repeat split.
  - rewrite Compare_refl. cbn [Z.ltb Z.eqb orb andb Z.compare].
    apply Z.ltb_irrefl.
  - intros H1 H2.
    apply orb_true_iff in H1 as [H1|[H1 N1]%andb_true_iff];
      apply orb_true_iff in H2 as [H2|[H2 N2]%andb_true_iff];
      repeat match goal with
             | H : (_ <? _) = true |- _ => apply Z.ltb_lt in H
             | H : (_ =? _) = true |- _ => apply Z.eqb_eq in H
             end;
      apply orb_true_iff.
    + left. apply Z.ltb_lt. eapply Compare_lt_trans; eassumption.
    + left. apply Z.ltb_lt.
      apply Compare_zero in H2; [subst hc; exact H1 | exact Hbc].
    + left. apply Z.ltb_lt.
      apply Compare_zero in H1; [subst hb; exact H2 | exact Hab].
    + apply Compare_zero in H1; [subst hb | exact Hab].
      right. apply andb_true_iff. split; [now apply Z.eqb_eq | apply Z.ltb_lt; lia].
  - rewrite Sab. cmp_cases.
  - rewrite Sab. cmp_cases.
  - cmp_cases.
  - intros H. apply Z.ltb_lt in H. rewrite H. reflexivity.
Qed.

Lemma COutPoint_operator_lt_strict_total_order_witness :
  COutPoint.operator_lt (COutPoint.mk scenario_hash 5)
                        (COutPoint.mk (repeat x00 31 ++ [x02]) 0) = true.
Proof.
  destruct (COutPoint_operator_lt_strict_total_order
              (COutPoint.mk scenario_hash 5) (COutPoint.mk scenario_hash 7)
              (COutPoint.mk (repeat x00 31 ++ [x02]) 0) eq_refl eq_refl)
    as (_ & Htrans & _).
  apply Htrans; reflexivity.
Defined.

Lemma write_inj (a b : list byte) (s : Stream) :
  write a s = write b s -> a = b.
Proof.
  unfold write, set_vch. intros [= H]. now apply app_inv_head in H.
Qed.

Lemma CTxIn_bytes_fields (a b : CTxIn.t) :
  CTxIn_ok a = true -> CTxIn_ok b = true ->
  CTxIn_bytes a = CTxIn_bytes b ->
  CTxIn.prevout a = CTxIn.prevout b
  /\ CTxIn.scriptSig a = CTxIn.scriptSig b
  /\ CTxIn.nSequence a = CTxIn.nSequence b.
Proof.
  intros Ha Hb Hbytes.
  pose proof (CTxIn_Unserialize_bytes a [] 0 Ha) as Ra.
  pose proof (CTxIn_Unserialize_bytes b [] 0 Hb) as Rb.
  rewrite Hbytes, Rb in Ra.
  assert (E : CTxIn.set_stack b [] = CTxIn.set_stack a []) by congruence.
  pose proof (f_equal CTxIn.prevout E) as Ep.
  pose proof (f_equal CTxIn.scriptSig E) as Es.
  pose proof (f_equal CTxIn.nSequence E) as Eq.
  cbn in Ep, Es, Eq. auto.
Qed.

Lemma CTxIn_operator_eq_fields (a b : CTxIn.t) :
  length (COutPoint.hash (CTxIn.prevout a))
  = length (COutPoint.hash (CTxIn.prevout b)) ->
  (CTxIn.operator_eq a b = true <->
   CTxIn.prevout a = CTxIn.prevout b
   /\ CTxIn.scriptSig a = CTxIn.scriptSig b
   /\ CTxIn.nSequence a = CTxIn.nSequence b).
Proof.
  intros Hl. unfold CTxIn.operator_eq.
  rewrite !andb_true_iff, CScript_operator_eq_spec, Z.eqb_eq.
  rewrite (proj1 (COutPoint_operator_eq_fields _ _ Hl)). tauto.
Qed.

(** X3.  [operator==] on inputs whose outpoint hashes have the same width
    holds exactly when outpoint, unlocking script and sequence number are
    equal; the witness stacks take no part in it. *)
Theorem CTxIn_operator_eq_spec (a b : CTxIn.t) :
  length (COutPoint.hash (CTxIn.prevout a))
  = length (COutPoint.hash (CTxIn.prevout b)) ->
  (CTxIn.operator_eq a b = true <->
   CTxIn.prevout a = CTxIn.prevout b
   /\ CTxIn.scriptSig a = CTxIn.scriptSig b
   /\ CTxIn.nSequence a = CTxIn.nSequence b)
  /\ (forall sa sb,
        CTxIn.operator_eq (CTxIn.set_stack a sa) (CTxIn.set_stack b sb)
        = CTxIn.operator_eq a b)
  /\ (CTxIn.operator_ne a b = true <-> CTxIn.operator_eq a b = false).
Proof.
  intros Hl. split; [now apply CTxIn_operator_eq_fields|]. split.
  - intros sa sb. reflexivity.
  - unfold CTxIn.operator_ne. apply negb_true_iff.
Qed.

Lemma CTxIn_operator_eq_spec_witness :
  CTxIn.operator_eq (scenario_txin []) (scenario_txin [[xab]]) = true.
Proof.
  destruct (CTxIn_operator_eq_spec (scenario_txin []) (scenario_txin [[xab]])
              eq_refl) as [Hiff _].
  apply Hiff. repeat split.
Defined.

(** X4.  Two valid inputs are [operator==] exactly when
    [CTxIn::Serialize] writes the same bytes for them: the operator compares
    what the serialization carries. *)
Theorem CTxIn_operator_eq_iff_same_bytes (a b : CTxIn.t) (s : Stream) :
  CTxIn_ok a = true -> CTxIn_ok b = true ->
  (CTxIn.operator_eq a b = true <-> CTxIn.Serialize a s = CTxIn.Serialize b s).
Proof.
  intros Ha Hb.
  assert (Hl : length (COutPoint.hash (CTxIn.prevout a))
               = length (COutPoint.hash (CTxIn.prevout b))).
  { unfold CTxIn_ok, COutPoint_ok in Ha, Hb.
    rewrite !andb_true_iff, Nat.eqb_eq in Ha, Hb. lia. }
  rewrite (CTxIn_operator_eq_fields a b Hl), !CTxIn_Serialize_bytes. split.
  - intros (Hp & Hs & Hq). unfold CTxIn_bytes. now rewrite Hp, Hs, Hq.
  - intros H%write_inj. now apply CTxIn_bytes_fields.
Qed.

Lemma CTxIn_operator_eq_iff_same_bytes_witness :
  CTxIn.Serialize (scenario_txin []) (witness_stream [])
  = CTxIn.Serialize (scenario_txin [[xab]]) (witness_stream []).
Proof.
  apply (CTxIn_operator_eq_iff_same_bytes (scenario_txin [])
           (scenario_txin [[xab]]) (witness_stream []) eq_refl eq_refl).
  reflexivity.
Defined.

(** X5.  [operator==] on outputs holds exactly for equal outputs, and for
    valid outputs exactly when [CTxOut::Serialize] writes the same bytes. *)
Theorem CTxOut_operator_eq_spec (a b : CTxOut.t) (s : Stream) :
  CTxOut_ok a = true -> CTxOut_ok b = true ->
  (CTxOut.operator_eq a b = true <-> a = b)
  /\ (CTxOut.operator_eq a b = true <->
      CTxOut.Serialize a s = CTxOut.Serialize b s)
  /\ (CTxOut.operator_ne a b = true <-> a <> b).
Proof.
  intros Ha Hb.
  assert (Heq : CTxOut.operator_eq a b = true <-> a = b).
  { unfold CTxOut.operator_eq.
    rewrite andb_true_iff, Z.eqb_eq, CScript_operator_eq_spec.
    destruct a as [va sa], b as [vb sb]. cbn [CTxOut.nValue CTxOut.scriptPubKey].
    split; [intros [-> ->]; reflexivity | intros [= -> ->]; tauto]. }
  split; [exact Heq|]. split.
  - rewrite Heq, !CTxOut_Serialize_bytes. split.
    + now intros ->.
    + intros H%write_inj.
      pose proof (CTxOut_Unserialize_bytes a a [] 0 Ha) as Ra.
      pose proof (CTxOut_Unserialize_bytes a b [] 0 Hb) as Rb.
      rewrite H, Rb in Ra. now injection Ra.
  - unfold CTxOut.operator_ne. rewrite negb_true_iff, <- Heq.
    destruct (CTxOut.operator_eq a b); split; congruence.
Qed.

Lemma CTxOut_operator_eq_spec_witness :
  CTxOut.operator_ne scenario_txout (CTxOut.mk 5000000000 []) = true.
Proof.
  destruct (CTxOut_operator_eq_spec scenario_txout (CTxOut.mk 5000000000 [])
              (witness_stream []) eq_refl eq_refl) as (_ & _ & Hne).
  apply Hne. discriminate.
Defined.

(** ** What the readers accept

    The converse of the round trip: whatever a reader returns, the bytes it
    consumed are the layout of the value returned. *)

Lemma consumed_app s a s1 b s2 :
  consumed s a s1 -> consumed s1 b s2 -> consumed s (a ++ b) s2.
Proof.
  intros [Ha Va] [Hb Vb]. split; [|congruence].
  now rewrite Ha, Hb, app_assoc.
Qed.

Lemma consumed_nil s : consumed s [] s.
Proof. split; reflexivity. Qed.

Lemma read_consumed k s bs s' :
  read k s = Ok bs s' -> consumed s bs s' /\ length bs = k.
Proof.
  intros H. pose proof (read_Ok _ _ _ _ H) as [Hv Hl].
  split; [|exact Hl]. split; [exact Hv|].
  unfold read in H. destruct (length (vch s) <? k)%nat; [discriminate|].
  now injection H as _ <-.
Qed.

Lemma byte_of_Z_mod (z : Z) : byte_of_Z (z mod 256) = byte_of_Z z.
Proof. unfold byte_of_Z. now rewrite Z.mod_mod by lia. Qed.

Lemma le_bytes_le_value (bs : list byte) :
  le_bytes (length bs) (le_value bs) = bs.
Proof.
  induction bs as [|b bs IH]; [reflexivity|].
  cbn [length le_value le_bytes]. pose proof (Z_of_byte_range b) as Hb.
  f_equal.
  - rewrite <- byte_of_Z_mod.
    replace ((Z_of_byte b + 256 * le_value bs) mod 256) with (Z_of_byte b).
    + apply byte_of_Z_of_byte.
    + apply Z.mod_unique with (q := le_value bs); lia.
  - rewrite Z.shiftr_div_pow2 by lia. change (2 ^ 8) with 256.
    replace ((Z_of_byte b + 256 * le_value bs) / 256) with (le_value bs);
      [exact IH|].
    apply Z.div_unique with (r := Z_of_byte b); lia.
Qed.

Lemma le_value_bound (bs : list byte) :
  0 <= le_value bs < 2 ^ (8 * Z.of_nat (length bs)).
Proof.
  induction bs as [|b bs IH]; [cbn; lia|].
  cbn [length le_value]. pose proof (Z_of_byte_range b) as Hb.
  replace (8 * Z.of_nat (S (length bs))) with (8 + 8 * Z.of_nat (length bs)) by lia.
  rewrite Z.pow_add_r by lia. change (2 ^ 8) with 256. nia.
Qed.

Lemma le_bytes_mod (w : nat) (z : Z) :
  le_bytes w (z mod 2 ^ (8 * Z.of_nat w)) = le_bytes w z.
Proof.
  rewrite <- (le_value_le_bytes w z).
  rewrite <- (le_bytes_length w z) at 1. apply le_bytes_le_value.
Qed.

Lemma to_signed_range (k u : Z) :
  0 < k -> 0 <= u < 2 ^ k ->
  - 2 ^ (k - 1) <= to_signed k u < 2 ^ (k - 1)
  /\ (to_signed k u) mod 2 ^ k = u.
Proof.
  intros Hk Hu. unfold to_signed.
  assert (Hp : 2 ^ k = 2 * 2 ^ (k - 1)).
  { replace k with (1 + (k - 1)) at 1 by lia. rewrite Z.pow_add_r by lia. lia. }
  destruct (Z.ltb_spec u (2 ^ (k - 1))) as [Hlt|Hge].
  - split; [lia|]. apply Z.mod_small. lia.
  - split; [lia|]. symmetry. apply Z.mod_unique with (q := -1); lia.
Qed.

Section ReadData.
Variable w : nat.

Lemma ser_readdata_consumed s x s' :
  (bs <- read w ;; ret (le_value bs)) s = Ok x s' ->
  consumed s (le_bytes w x) s' /\ 0 <= x < 2 ^ (8 * Z.of_nat w).
Proof.
  unfold bind, ret. destruct (read w s) as [bs s1|e s1] eqn:E; [|discriminate].
  intros [= <- <-]. apply read_consumed in E as [Hc Hl]. subst w.
  rewrite le_bytes_le_value. split; [exact Hc | apply le_value_bound].
Qed.
End ReadData.

Lemma Unserialize_uint32_consumed a s x s' :
  Unserialize_uint32 a s = Ok x s' ->
  consumed s (le_bytes 4 x) s' /\ in_uint32 x = true.
Proof.
  intros H. apply (ser_readdata_consumed 4) in H as [Hc Hx].
  split; [exact Hc|]. apply in_uint32_spec. exact Hx.
Qed.

Lemma Unserialize_int32_consumed a s x s' :
  Unserialize_int32 a s = Ok x s' ->
  consumed s (le_bytes 4 x) s' /\ in_int32 x = true.
Proof.
  unfold Unserialize_int32. unfold bind at 1.
  destruct (ser_readdata32 s) as [u s1|e s1] eqn:E; [|discriminate].
  intros [= <- <-]. apply (ser_readdata_consumed 4) in E as [Hc Hu].
  destruct (to_signed_range 32 u ltac:(lia) Hu) as [Hr Hm].
  split; [|apply in_int32_spec; exact Hr].
  rewrite <- (le_bytes_mod 4 (to_signed 32 u)).
  change (8 * Z.of_nat 4) with 32. now rewrite Hm.
Qed.

Lemma Unserialize_int64_consumed a s x s' :
  Unserialize_int64 a s = Ok x s' ->
  consumed s (le_bytes 8 x) s' /\ in_int64 x = true.
Proof.
  unfold Unserialize_int64. unfold bind at 1.
  destruct (ser_readdata64 s) as [u s1|e s1] eqn:E; [|discriminate].
  intros [= <- <-]. apply (ser_readdata_consumed 8) in E as [Hc Hu].
  destruct (to_signed_range 64 u ltac:(lia) Hu) as [Hr Hm].
  split; [|apply in_int64_spec; exact Hr].
  rewrite <- (le_bytes_mod 8 (to_signed 64 u)).
  change (8 * Z.of_nat 8) with 64. now rewrite Hm.
Qed.

Lemma ReadCompactSize_consumed s n s' :
  ReadCompactSize s = Ok n s' ->
  consumed s (CompactSize_bytes n) s' /\ 0 <= n <= MAX_SIZE.
Proof.
  unfold ReadCompactSize. unfold bind at 1.
  destruct (ser_readdata8 s) as [c s1|e s1] eqn:E; [|discriminate].
  apply (ser_readdata_consumed 1) in E as [Hc Hr].
  change (8 * Z.of_nat 1) with 8 in Hr. change (2 ^ 8) with 256 in Hr.
  unfold bind at 1. unfold CompactSize_bytes, MAX_SIZE.
  destruct (Z.ltb_spec c 253) as [Hlt|Hge].
  - unfold ret at 1. destruct (Z.gtb_spec c 33554432); [discriminate|].
    intros [= <- <-]. apply Z.ltb_lt in Hlt. rewrite Hlt.
    split; [exact Hc | lia].
  - destruct (Z.eqb_spec c 253) as [->|N253].
    { unfold bind at 1.
      destruct (ser_readdata16 s1) as [m s2|e s2] eqn:E2; [|discriminate].
      apply (ser_readdata_consumed 2) in E2 as [Hc2 Hr2].
      change (8 * Z.of_nat 2) with 16 in Hr2. change (2 ^ 16) with 65536 in Hr2.
      destruct (Z.ltb_spec m 253); [discriminate|]. unfold ret at 1.
      destruct (Z.gtb_spec m 33554432); [discriminate|].
      intros [= <- <-].
      replace (m <? 253) with false by (symmetry; apply Z.ltb_ge; lia).
      replace (m <=? 65535) with true by (symmetry; apply Z.leb_le; lia).
      split; [eapply consumed_app; eassumption | lia]. }
    destruct (Z.eqb_spec c 254) as [->|N254].
    { unfold bind at 1.
      destruct (ser_readdata32 s1) as [m s2|e s2] eqn:E2; [|discriminate].
      apply (ser_readdata_consumed 4) in E2 as [Hc2 Hr2].
      destruct (Z.ltb_spec m 65536); [discriminate|]. unfold ret at 1.
      destruct (Z.gtb_spec m 33554432); [discriminate|].
      intros [= <- <-].
      replace (m <? 253) with false by (symmetry; apply Z.ltb_ge; lia).
      replace (m <=? 65535) with false by (symmetry; apply Z.leb_gt; lia).
      replace (m <=? 4294967295) with true by (symmetry; apply Z.leb_le; lia).
      split; [eapply consumed_app; eassumption | lia]. }
    unfold bind at 1.
    destruct (ser_readdata64 s1) as [m s2|e s2] eqn:E2; [|discriminate].
    destruct (Z.ltb_spec m 4294967296); [discriminate|]. unfold ret at 1.
    destruct (Z.gtb_spec m 33554432); [discriminate|]. lia.
Qed.

Lemma Unserialize_bytes_consumed a s v s' :
  Unserialize_bytes a s = Ok v s' ->
  consumed s (bytes_bytes v) s' /\ size_ok v = true.
Proof.
  unfold Unserialize_bytes, bind.
  destruct (ReadCompactSize s) as [n s1|e s1] eqn:E; [|discriminate].
  intros H. apply ReadCompactSize_consumed in E as [Hc Hn].
  apply read_consumed in H as [Hc2 Hl].
  assert (Hlen : Z.of_nat (length v) = n) by lia.
  unfold bytes_bytes. rewrite Hlen. split.
  - eapply consumed_app; eassumption.
  - apply size_ok_spec. lia.
Qed.

Section VectorConsumed.
Context {T : Type}.
Variable ser : T -> list byte.
Variable dflt : T.
Variable unser : T -> M T.
Variable ok : T -> bool.
Hypothesis unser_consumed : forall s x s',
  unser dflt s = Ok x s' -> consumed s (ser x) s' /\ ok x = true.

Lemma Unserialize_elements_consumed k s v s' :
  Unserialize_elements dflt unser k s = Ok v s' ->
  consumed s (concat (map ser v)) s' /\ forallb ok v = true /\ length v = k.
Proof.
  revert s v s'. induction k as [|k IH]; intros s v s';
    cbn [Unserialize_elements].
  - intros [= <- <-]. repeat split.
  - unfold bind at 1. destruct (unser dflt s) as [x s1|e s1] eqn:E; [|discriminate].
    unfold bind at 1.
    destruct (Unserialize_elements dflt unser k s1) as [r s2|e s2] eqn:E2;
      [|discriminate].
    intros [= <- <-]. apply unser_consumed in E as [Hc Hx].
    apply IH in E2 as (Hc2 & Hr & Hl).
    cbn [map concat forallb length]. rewrite Hx, Hr, Hl.
    split; [eapply consumed_app; eassumption | split; reflexivity].
Qed.

Lemma Unserialize_vector_consumed a s v s' :
  Unserialize_vector dflt unser a s = Ok v s' ->
  consumed s (vector_bytes ser v) s'
  /\ size_ok v = true /\ forallb ok v = true.
Proof.
  unfold Unserialize_vector, bind.
  destruct (ReadCompactSize s) as [n s1|e s1] eqn:E; [|discriminate].
  intros H. apply ReadCompactSize_consumed in E as [Hc Hn].
  apply Unserialize_elements_consumed in H as (Hc2 & Hok & Hl).
  assert (Hlen : Z.of_nat (length v) = n) by lia.
  unfold vector_bytes. rewrite Hlen. split; [|split].
  - eapply consumed_app; eassumption.
  - apply size_ok_spec. lia.
  - exact Hok.
Qed.
End VectorConsumed.

Lemma COutPoint_Unserialize_consumed a s o s' :
  COutPoint.Unserialize a s = Ok o s' ->
  consumed s (COutPoint_bytes o) s' /\ COutPoint_ok o = true.
Proof.
  unfold COutPoint.Unserialize, uint256.Unserialize. unfold bind at 1.
  destruct (read uint256.WIDTH s) as [h s1|e s1] eqn:E; [|discriminate].
  cbn [COutPoint.n COutPoint.hash]. unfold bind at 1.
  destruct (Unserialize_uint32 (COutPoint.n a) s1) as [x s2|e s2] eqn:E2;
    [|discriminate].
  intros [= <- <-]. apply read_consumed in E as [Hc Hl].
  apply Unserialize_uint32_consumed in E2 as [Hc2 Hx].
  unfold COutPoint_bytes, COutPoint_ok. cbn [COutPoint.n COutPoint.hash].
  split; [eapply consumed_app; eassumption|].
  rewrite Hl, Hx. reflexivity.
Qed.

Lemma CTxIn_Unserialize_consumed a s i s' :
  CTxIn.Unserialize a s = Ok i s' ->
  consumed s (CTxIn_bytes i) s'
  /\ CTxIn.scriptWitness i = CTxIn.scriptWitness a
  /\ COutPoint_ok (CTxIn.prevout i) && size_ok (CTxIn.scriptSig i)
     && in_uint32 (CTxIn.nSequence i) = true.
Proof.
  unfold CTxIn.Unserialize. unfold bind at 1.
  destruct (COutPoint.Unserialize (CTxIn.prevout a) s) as [p s1|e s1] eqn:E1;
    [|discriminate].
  cbn [CTxIn.prevout CTxIn.scriptSig CTxIn.nSequence CTxIn.scriptWitness].
  unfold bind at 1.
  destruct (Unserialize_bytes (CTxIn.scriptSig a) s1) as [sc s2|e s2] eqn:E2;
    [|discriminate].
  unfold bind at 1.
  destruct (Unserialize_uint32 (CTxIn.nSequence a) s2) as [q s3|e s3] eqn:E3;
    [|discriminate].
  intros [= <- <-].
  apply COutPoint_Unserialize_consumed in E1 as [Hc1 Hp].
  apply Unserialize_bytes_consumed in E2 as [Hc2 Hs].
  apply Unserialize_uint32_consumed in E3 as [Hc3 Hq].
  unfold CTxIn_bytes.
  cbn [CTxIn.prevout CTxIn.scriptSig CTxIn.nSequence CTxIn.scriptWitness].
  split; [|split].
  - eapply consumed_app; [exact Hc1|].
    eapply consumed_app; eassumption.
  - reflexivity.
  - now rewrite Hp, Hs, Hq.
Qed.

Lemma CTxOut_Unserialize_consumed a s o s' :
  CTxOut.Unserialize a s = Ok o s' ->
  consumed s (CTxOut_bytes o) s' /\ CTxOut_ok o = true.
Proof.
  unfold CTxOut.Unserialize. unfold bind at 1.
  destruct (Unserialize_int64 (CTxOut.nValue a) s) as [v s1|e s1] eqn:E1;
    [|discriminate].
  cbn [CTxOut.nValue CTxOut.scriptPubKey]. unfold bind at 1.
  destruct (Unserialize_bytes (CTxOut.scriptPubKey a) s1) as [sc s2|e s2] eqn:E2;
    [|discriminate].
  intros [= <- <-].
  apply Unserialize_int64_consumed in E1 as [Hc1 Hv].
  apply Unserialize_bytes_consumed in E2 as [Hc2 Hs].
  unfold CTxOut_bytes, CTxOut_ok. cbn [CTxOut.nValue CTxOut.scriptPubKey].
  split; [eapply consumed_app; eassumption | now rewrite Hv, Hs].
Qed.

Lemma Unserialize_vin_consumed a s v s' :
  Unserialize_vin a s = Ok v s' ->
  consumed s (vector_bytes CTxIn_bytes v) s'
  /\ size_ok v = true /\ forallb fresh_input v = true.
Proof.
  apply Unserialize_vector_consumed.
  intros s0 x s0' H. apply CTxIn_Unserialize_consumed in H as (Hc & Hw & Hok).
  split; [exact Hc|]. unfold fresh_input, CTxIn_ok. rewrite Hok, Hw. reflexivity.
Qed.

Lemma Unserialize_vout_consumed a s v s' :
  Unserialize_vout a s = Ok v s' ->
  consumed s (vector_bytes CTxOut_bytes v) s'
  /\ size_ok v = true /\ forallb CTxOut_ok v = true.
Proof.
  apply Unserialize_vector_consumed. intros s0 x s0'.
  apply CTxOut_Unserialize_consumed.
Qed.

Lemma Unserialize_stack_consumed a s st s' :
  CScriptWitness.Unserialize_stack a s = Ok st s' ->
  consumed s (stack_bytes st) s' /\ stack_ok st = true.
Proof.
  intros H.
  apply (Unserialize_vector_consumed bytes_bytes [] Unserialize_bytes size_ok)
    in H as (Hc & Hs & Hok).
  - split; [exact Hc|]. unfold stack_ok. now rewrite Hs, Hok.
  - intros s0 x s0'. apply Unserialize_bytes_consumed.
Qed.

Lemma fresh_input_forall (v : list CTxIn.t) :
  forallb fresh_input v = true ->
  forallb CTxIn_ok v = true /\ HasWitness_loop v = false.
Proof.
  induction v as [|i v IH]; [split; reflexivity|].
  cbn [forallb HasWitness_loop]. unfold fresh_input at 1.
  intros [[Hok Hnull]%andb_true_iff Hv]%andb_true_iff.
  destruct (IH Hv) as [H1 H2]. rewrite Hok, H1, Hnull, H2. split; reflexivity.
Qed.

Lemma Unserialize_witnesses_consumed v s v' s' :
  Unserialize_witnesses v s = Ok v' s' ->
  consumed s (witnesses_bytes v') s'
  /\ map CTxIn_bytes v' = map CTxIn_bytes v
  /\ length v' = length v
  /\ (forallb fresh_input v = true -> forallb CTxIn_ok v' = true).
Proof.
  revert s v' s'. induction v as [|i v IH]; intros s v' s';
    cbn [Unserialize_witnesses].
  - intros [= <- <-]. split; [apply consumed_nil | repeat split].
  - unfold bind at 1.
    destruct (CScriptWitness.Unserialize_stack
                (CScriptWitness.stack (CTxIn.scriptWitness i)) s)
      as [st s1|e s1] eqn:E; [|discriminate].
    unfold bind at 1.
    destruct (Unserialize_witnesses v s1) as [r s2|e s2] eqn:E2; [|discriminate].
    intros [= <- <-].
    apply Unserialize_stack_consumed in E as [Hc Hst].
    apply IH in E2 as (Hc2 & Hb & Hl & Hok).
    unfold witnesses_bytes in *. cbn [map concat length forallb].
    cbn [CTxIn.set_stack CTxIn.scriptWitness CScriptWitness.stack].
    split; [eapply consumed_app; eassumption|]. split; [|split].
    + now rewrite Hb.
    + now rewrite Hl.
    + unfold fresh_input at 1.
      intros [[Hi _]%andb_true_iff Hv]%andb_true_iff.
      rewrite (Hok Hv), andb_true_r.
      unfold CTxIn_ok in *.
      cbn [CTxIn.set_stack CTxIn.prevout CTxIn.scriptSig CTxIn.nSequence
           CTxIn.scriptWitness CScriptWitness.stack].
      apply andb_true_iff in Hi as [Hi _]. now rewrite Hi, Hst.
Qed.

Lemma Unserialize_uchar_consumed a s x s' :
  Unserialize_uchar a s = Ok x s' ->
  consumed s (le_bytes 1 x) s' /\ 0 <= x < 256.
Proof. apply (ser_readdata_consumed 1). Qed.

Lemma vector_bytes_same_map {T} (f : T -> list byte) (v v' : list T) :
  map f v' = map f v -> vector_bytes f v' = vector_bytes f v.
Proof.
  intros H. unfold vector_bytes.
  rewrite <- (length_map f v'), <- (length_map f v), H. reflexivity.
Qed.

Ltac invert_reads :=
  repeat match goal with
    | H : Unserialize_int32 _ _ = Ok _ _ |- _ =>
        apply Unserialize_int32_consumed in H as [[? ?] ?]
    | H : Unserialize_uint32 _ _ = Ok _ _ |- _ =>
        apply Unserialize_uint32_consumed in H as [[? ?] ?]
    | H : Unserialize_uchar _ _ = Ok _ _ |- _ =>
        apply Unserialize_uchar_consumed in H as [[? ?] ?]
    | H : Unserialize_vin _ _ = Ok _ _ |- _ =>
        apply Unserialize_vin_consumed in H as ([? ?] & ? & ?)
    | H : Unserialize_vout _ _ = Ok _ _ |- _ =>
        apply Unserialize_vout_consumed in H as ([? ?] & ? & ?)
    | H : Unserialize_witnesses _ _ = Ok _ _ |- _ =>
        apply Unserialize_witnesses_consumed in H as ([? ?] & ? & ? & ?)
    end.

Ltac chain_consumed :=
  repeat match goal with
    | H : vch ?x = _ ++ vch _ |- context [vch ?x] => rewrite H; clear H
    end;
  rewrite <- ?app_assoc.

Lemma UnserializeTransaction_accepts tx0 s t s' :
  UnserializeTransaction tx0 s = Ok t s' ->
  GetVersion s' = GetVersion s
  /\ tx_ok t = true
  /\ ((vch s = legacy_bytes t ++ vch s'
       /\ CMutableTransaction.HasWitness t = false
       /\ (fAllowWitness_of s = true -> CMutableTransaction.vin t = [] ->
           CMutableTransaction.vout t = []))
      \/ (fAllowWitness_of s = true
          /\ vch s = extended_bytes 1 t ++ vch s')).
Proof.
  unfold UnserializeTransaction, UnserializeTransaction_fields.
  unfold bind, ret, throw. cbv beta zeta.
  cbn [CMutableTransaction.vin CMutableTransaction.vout
       CMutableTransaction.nVersion CMutableTransaction.nLockTime
       CMutableTransaction.set_vin CMutableTransaction.set_vout
       CMutableTransaction.set_nVersion CMutableTransaction.set_nLockTime].
  repeat next_read_eqn; try discriminate.
  all: intros [= <- <-].
  all: repeat match goal with
       | H : negb (?x =? 0) = false |- _ =>
           apply negb_false_iff, Z.eqb_eq in H
       end.
  all: try match goal with
       | H : (length ?v =? 0)%nat && _ = true |- _ =>
           apply andb_true_iff in H as [Hlen Hallow];
           apply Nat.eqb_eq in Hlen; destruct v; [|discriminate Hlen]
       end.
  all: invert_reads.
  all: (split; [congruence|]).
  all: unfold tx_ok, legacy_bytes, extended_bytes, CMutableTransaction.HasWitness.
  all: cbn [CMutableTransaction.vin CMutableTransaction.vout
            CMutableTransaction.nVersion CMutableTransaction.nLockTime
            CMutableTransaction.set_vin CMutableTransaction.set_vout
            CMutableTransaction.set_nVersion CMutableTransaction.set_nLockTime].
  - (* extended format, flags byte 1 *)
    match goal with H : Z.lxor ?x 1 = 0 |- _ => apply Z.lxor_eq in H; subst x end.
    match goal with H : forallb fresh_input ?v = true -> _ |- _ =>
      assert (Hf : forallb fresh_input v = true) by assumption;
      specialize (H Hf) end.
    split.
    + match goal with H : length ?v' = length ?v, Hs : size_ok ?v = true |- _ =>
        assert (Hsz' : size_ok v' = true) by (unfold size_ok in *; now rewrite H)
      end.
      repeat match goal with H : _ = true |- _ => rewrite H; clear H end.
      reflexivity.
    + right. split; [exact Hallow|].
      match goal with H : map CTxIn_bytes _ = map CTxIn_bytes _ |- _ =>
        rewrite (vector_bytes_same_map _ _ _ H) end.
      chain_consumed. reflexivity.
  - (* flags byte 0 with bit 0 set: impossible *)
    exfalso.
    match goal with H : Z.lxor ?x 1 = 0 |- _ => apply Z.lxor_eq in H end.
    congruence.
  - (* empty inputs, flags byte 0 *)
    subst. split.
    + repeat match goal with H : _ = true |- _ => rewrite H; clear H end.
      reflexivity.
    + left. split; [|split; [reflexivity | reflexivity]].
      chain_consumed. reflexivity.
  - (* inputs then outputs *)
    match goal with H : forallb fresh_input ?v = true |- _ =>
      destruct (fresh_input_forall v H) as [Hok Hnw] end.
    split.
    + repeat match goal with H : _ = true |- _ => rewrite H; clear H end.
      reflexivity.
    + left. split; [|split; [exact Hnw|]].
      * chain_consumed. reflexivity.
      * intros Ha Hv.
        match goal with H : (length _ =? 0)%nat && _ = false |- _ =>
          rewrite Ha, Hv in H; discriminate H end.
Qed.

(** ** The element codecs *)

Lemma fresh_stream (s : Stream) : vch s = [] -> s = mkStream [] (GetVersion s).
Proof. destruct s as [bs ver]. cbn. now intros ->. Qed.

Lemma write_fresh (bs : list byte) (ver : Z) :
  write bs (mkStream [] ver) = mkStream (bs ++ []) ver.
Proof. unfold write, set_vch. cbn. now rewrite app_nil_r. Qed.

(** X6.  An outpoint with a 32-byte hash and a 32-bit index is written as
    36 bytes, and reading them back into any target returns it and leaves
    the stream empty. *)
Theorem COutPoint_roundtrip (a o : COutPoint.t) (s : Stream) :
  COutPoint_ok o = true -> vch s = [] ->
  COutPoint.Unserialize a (COutPoint.Serialize o s) = Ok o s
  /\ length (vch (COutPoint.Serialize o s)) = 36%nat.
Proof.
  intros Hok Hs. rewrite (fresh_stream s Hs), COutPoint_Serialize_bytes, write_fresh.
  split.
  - apply COutPoint_Unserialize_bytes. exact Hok.
  - cbn [vch]. unfold COutPoint_ok in Hok.
    apply andb_true_iff in Hok as [Hh%Nat.eqb_eq _].
    unfold COutPoint_bytes. rewrite !length_app, le_bytes_length, Hh. reflexivity.
Qed.

Lemma COutPoint_roundtrip_witness :
  COutPoint.Unserialize COutPoint.default
    (COutPoint.Serialize (COutPoint.mk scenario_hash 7) (witness_stream []))
  = Ok (COutPoint.mk scenario_hash 7) (witness_stream []).
Proof.
  apply (COutPoint_roundtrip COutPoint.default (COutPoint.mk scenario_hash 7)
           (witness_stream []) eq_refl eq_refl).
Defined.

(** X7.  [CTxIn::Serialize] does not write the witness, and
    [CTxIn::Unserialize] does not touch it: reading back what was written
    for [i] into a target [a] returns [i]'s outpoint, script and sequence
    number with [a]'s witness. *)
Theorem CTxIn_roundtrip_keeps_target_witness (a i : CTxIn.t) (s : Stream) :
  COutPoint_ok (CTxIn.prevout i) = true ->
  size_ok (CTxIn.scriptSig i) = true ->
  in_uint32 (CTxIn.nSequence i) = true ->
  vch s = [] ->
  CTxIn.Unserialize a (CTxIn.Serialize i s)
  = Ok (CTxIn.mk (CTxIn.prevout i) (CTxIn.scriptSig i) (CTxIn.nSequence i)
          (CTxIn.scriptWitness a)) s
  /\ (forall st, CTxIn.Serialize (CTxIn.set_stack i st) s = CTxIn.Serialize i s).
Proof.
  intros Hp Hsc Hq Hs. split; [|reflexivity].
  rewrite (fresh_stream s Hs), CTxIn_Serialize_bytes, write_fresh.
  unfold CTxIn.Unserialize, CTxIn_bytes. rewrite <- !app_assoc.
  erewrite bind_Ok by (apply COutPoint_Unserialize_bytes; exact Hp).
  cbn [CTxIn.prevout CTxIn.scriptSig CTxIn.nSequence CTxIn.scriptWitness].
  erewrite bind_Ok by (apply Unserialize_bytes_bytes; exact Hsc).
  erewrite bind_Ok by (apply Unserialize_uint32_le; exact Hq).
  reflexivity.
Qed.

Lemma CTxIn_roundtrip_keeps_target_witness_witness :
  CTxIn.Unserialize (scenario_txin [[xab]])
    (CTxIn.Serialize (CTxIn.mk (COutPoint.mk scenario_hash 3) [x51] 5
                        (CScriptWitness.mk []))
       (witness_stream []))
  = Ok (CTxIn.mk (COutPoint.mk scenario_hash 3) [x51] 5
          (CScriptWitness.mk [[xab]])) (witness_stream []).
Proof.
  apply (CTxIn_roundtrip_keeps_target_witness (scenario_txin [[xab]])
           (CTxIn.mk (COutPoint.mk scenario_hash 3) [x51] 5
              (CScriptWitness.mk []))
           (witness_stream []) eq_refl eq_refl eq_refl eq_refl).
Defined.

(** X8.  An output with a 64-bit amount and a script of accepted length is
    read back, into any target, as written; a negative amount such as the
    null sentinel -1 survives the trip through its unsigned image. *)
Theorem CTxOut_roundtrip (a o : CTxOut.t) (s : Stream) :
  CTxOut_ok o = true -> vch s = [] ->
  CTxOut.Unserialize a (CTxOut.Serialize o s) = Ok o s.
Proof.
  intros Hok Hs. rewrite (fresh_stream s Hs), CTxOut_Serialize_bytes, write_fresh.
  apply CTxOut_Unserialize_bytes. exact Hok.
Qed.

Lemma CTxOut_roundtrip_witness :
  CTxOut.Unserialize scenario_txout
    (CTxOut.Serialize CTxOut.default (witness_stream []))
  = Ok CTxOut.default (witness_stream []).
Proof.
  apply (CTxOut_roundtrip scenario_txout CTxOut.default (witness_stream [])
           eq_refl eq_refl).
Defined.

Lemma all_zero_repeat (h : list byte) :
  (forall b, In b h -> b = x00) -> h = repeat x00 (length h).
Proof.
  induction h as [|b h IH]; intros H; [reflexivity|].
  cbn [length repeat]. rewrite (H b (or_introl eq_refl)).
  f_equal. apply IH. intros c Hc. apply H. now right.
Qed.

(** X9.  [SetNull] makes any outpoint and any output null, and a null
    outpoint with a 32-byte hash is the default-constructed one. *)
Theorem SetNull_IsNull :
  (forall o, COutPoint.IsNull (COutPoint.SetNull o) = true)
  /\ (forall o, CTxOut.IsNull (CTxOut.SetNull o) = true)
  /\ (forall o, length (COutPoint.hash o) = uint256.WIDTH ->
                (COutPoint.IsNull o = true <-> o = COutPoint.default))
  /\ (forall o, length (COutPoint.hash o) = uint256.WIDTH ->
                (COutPoint.IsNull o = true <-> o = COutPoint.SetNull o)).
Proof.
  assert (Hdef : forall o, length (COutPoint.hash o) = uint256.WIDTH ->
                   (COutPoint.IsNull o = true <-> o = COutPoint.default)).
  { intros [h k] Hl. cbn [COutPoint.hash] in Hl.
    rewrite COutPoint_IsNull_spec. cbn [COutPoint.hash COutPoint.n]. split.
    - intros [Hz ->]. rewrite (all_zero_repeat h Hz), Hl. reflexivity.
    - intros [= -> ->]. split; [|reflexivity].
      intros b Hb. now apply repeat_spec in Hb. }
  repeat split; try reflexivity; try (now apply Hdef).
Qed.

(** ** The transaction decoder's accepted encodings *)

Lemma SerializeTransaction_fresh (t : CMutableTransaction.t) (ver : Z) :
  vch (SerializeTransaction t (mkStream [] ver))
  = if allows ver && CMutableTransaction.HasWitness t
    then extended_bytes 1 t else legacy_bytes t.
Proof. rewrite SerializeTransaction_bytes. reflexivity. Qed.

(** X10.  With witness serialization disallowed the decoder is exact: if it
    returns [t] and leaves [s'], then serializing [t] to a fresh stream of
    the same version and appending what [s'] still holds gives back the
    stream decoded; [t] is valid and carries no witness data, so decoding its
    serialization returns [t] again. *)
Theorem UnserializeTransaction_legacy_exact
  (tx0 t : CMutableTransaction.t) (s s' : Stream) :
  fAllowWitness_of s = false ->
  UnserializeTransaction tx0 s = Ok t s' ->
  write (vch s') (SerializeTransaction t (set_vch s [])) = s
  /\ tx_ok t = true
  /\ CMutableTransaction.HasWitness t = false
  /\ (forall tx1,
        UnserializeTransaction tx1 (SerializeTransaction t (set_vch s []))
        = Ok t (set_vch s [])).
Proof.
  intros Hno H.
  apply UnserializeTransaction_accepts in H as (Hver & Hok & [(Hb & Hw & _)|[Ha _]]);
    [|congruence].
  assert (Hser : SerializeTransaction t (set_vch s [])
                 = mkStream (legacy_bytes t) (GetVersion s)).
  { rewrite SerializeTransaction_bytes.
    change (fAllowWitness_of (set_vch s [])) with (fAllowWitness_of s).
    rewrite Hno. reflexivity. }
  split; [|split; [exact Hok | split; [exact Hw|]]].
  - rewrite Hser. unfold write, set_vch. cbn [vch GetVersion].
    rewrite <- Hb. destruct s; reflexivity.
  - intros tx1. rewrite Hser.
    rewrite <- (app_nil_r (legacy_bytes t)).
    rewrite <- (HasWitness_false_without t Hw) at 2.
    apply Unserialize_legacy_bytes; [exact Hok|].
    unfold allows. change (fAllowWitness_of (mkStream [] (GetVersion s)))
      with (fAllowWitness_of s). rewrite Hno. discriminate.
Qed.

Lemma UnserializeTransaction_legacy_exact_witness :
  write [xff] (SerializeTransaction scenario1 (legacy_stream []))
  = legacy_stream (legacy_bytes scenario1 ++ [xff]).
Proof.
  apply (UnserializeTransaction_legacy_exact scenario2 scenario1
           (legacy_stream (legacy_bytes scenario1 ++ [xff])) (legacy_stream [xff])).
  - reflexivity.
  - vm_compute. reflexivity.
Defined.

(** X11.  With witness serialization allowed, whatever the decoder accepts
    is a valid transaction [t] whose consumed bytes are either exactly what
    [SerializeTransaction] writes for [t], or, for a [t] without witness
    data, the extended format with flags 1 and every witness stack empty.
    The stream keeps its version and what follows the consumed bytes. *)
Theorem UnserializeTransaction_witness_mode_accepts
  (tx0 t : CMutableTransaction.t) (s s' : Stream) :
  fAllowWitness_of s = true ->
  UnserializeTransaction tx0 s = Ok t s' ->
  GetVersion s' = GetVersion s
  /\ tx_ok t = true
  /\ (vch s = vch (SerializeTransaction t (set_vch s [])) ++ vch s'
      \/ (CMutableTransaction.HasWitness t = false
          /\ vch s = extended_bytes 1 t ++ vch s')).
Proof.
  intros Hyes H.
  apply UnserializeTransaction_accepts in H as (Hver & Hok & Hshape).
  split; [exact Hver | split; [exact Hok|]].
  rewrite SerializeTransaction_bytes.
  change (fAllowWitness_of (set_vch s [])) with (fAllowWitness_of s).
  rewrite Hyes. cbn [andb]. unfold write, set_vch. cbn [vch app].
  destruct Hshape as [(Hb & Hw & _)|[_ Hb]].
  - left. rewrite Hw. exact Hb.
  - destruct (CMutableTransaction.HasWitness t); [left | right; split; [reflexivity|]];
      exact Hb.
Qed.

Lemma UnserializeTransaction_witness_mode_accepts_witness :
  let s := SerializeTransaction scenario2 (witness_stream []) in
  vch s = vch (SerializeTransaction scenario2 (set_vch s [])) ++ []
  \/ (CMutableTransaction.HasWitness scenario2 = false
      /\ vch s = extended_bytes 1 scenario2 ++ []).
Proof.
  intros s.
  destruct (UnserializeTransaction_witness_mode_accepts scenario1 scenario2
              s (witness_stream []) eq_refl) as (_ & _ & H).
  - vm_compute. reflexivity.
  - exact H.
Defined.

Lemma CompactSize_bytes_length (n : Z) : (1 <= length (CompactSize_bytes n))%nat.
Proof.
  unfold CompactSize_bytes.
  destruct (n <? 253); [|destruct (n <=? 65535); [|destruct (n <=? 4294967295)]];
    rewrite ?length_app, !le_bytes_length; lia.
Qed.

Lemma vector_bytes_length {T} (f : T -> list byte) (v : list T) :
  (1 <= length (vector_bytes f v))%nat.
Proof.
  unfold vector_bytes. rewrite length_app.
  pose proof (CompactSize_bytes_length (Z.of_nat (length v))). lia.
Qed.

Lemma legacy_bytes_length (t : CMutableTransaction.t) :
  (10 <= length (legacy_bytes t))%nat.
Proof.
  unfold legacy_bytes. rewrite !length_app, !le_bytes_length.
  pose proof (vector_bytes_length CTxIn_bytes (CMutableTransaction.vin t)).
  pose proof (vector_bytes_length CTxOut_bytes (CMutableTransaction.vout t)).
  lia.
Qed.

Lemma extended_bytes_length (f : Z) (t : CMutableTransaction.t) :
  length (extended_bytes f t)
  = (length (legacy_bytes t) + 2
     + length (witnesses_bytes (CMutableTransaction.vin t)))%nat.
Proof.
  unfold extended_bytes, legacy_bytes.
  rewrite !length_app, !le_bytes_length.
  change (length (CompactSize_bytes 0)) with 1%nat. lia.
Qed.

(** X12.  The decoder accepts an encoding the encoder never writes: for a
    valid transaction without witness data, the extended format with flags 1
    decodes, with witnesses allowed, to that transaction, although
    [SerializeTransaction] writes different (shorter) bytes for it. *)
Theorem UnserializeTransaction_accepts_superfluous_witness
  (tx0 tx : CMutableTransaction.t) (rest : list byte) (ver : Z) :
  tx_ok tx = true ->
  CMutableTransaction.HasWitness tx = false ->
  allows ver = true ->
  UnserializeTransaction tx0 (mkStream (extended_bytes 1 tx ++ rest) ver)
  = Ok tx (mkStream rest ver)
  /\ vch (SerializeTransaction tx (mkStream [] ver)) <> extended_bytes 1 tx
  /\ length (extended_bytes 1 tx)
     = (length (vch (SerializeTransaction tx (mkStream [] ver))) + 2
        + length (CMutableTransaction.vin tx))%nat.
Proof.
  intros Hok Hw Hyes.
  assert (Hser : vch (SerializeTransaction tx (mkStream [] ver)) = legacy_bytes tx).
  { now rewrite SerializeTransaction_fresh, Hw, andb_false_r. }
  assert (Hwit : length (witnesses_bytes (CMutableTransaction.vin tx))
                 = length (CMutableTransaction.vin tx)).
  { unfold CMutableTransaction.HasWitness in Hw. unfold witnesses_bytes.
    induction (CMutableTransaction.vin tx) as [|i v IH]; [reflexivity|].
    cbn [HasWitness_loop] in Hw. unfold CScriptWitness.IsNull in Hw.
    destruct (CScriptWitness.stack (CTxIn.scriptWitness i)) eqn:E;
      cbn [negb] in Hw; [|discriminate].
    cbn [map concat length]. rewrite E, length_app, (IH Hw). reflexivity. }
  split; [now apply Unserialize_extended_bytes|]. rewrite Hser. split.
  - intros Heq. apply (f_equal (@length byte)) in Heq.
    rewrite extended_bytes_length in Heq. lia.
  - rewrite extended_bytes_length, Hwit. reflexivity.
Qed.

Lemma UnserializeTransaction_accepts_superfluous_witness_witness :
  UnserializeTransaction scenario2
    (mkStream (extended_bytes 1 scenario1 ++ []) 0)
  = Ok scenario1 (mkStream [] 0).
Proof.
  apply (UnserializeTransaction_accepts_superfluous_witness scenario2 scenario1
           [] 0 eq_refl eq_refl eq_refl).
Defined.

(** X13.  A successful decode consumes at least ten bytes, so a stream
    holding fewer than ten bytes is always rejected, with one of the
    stream's failures or the unknown-optional-data failure. *)
Theorem UnserializeTransaction_short_stream
  (tx0 : CMutableTransaction.t) (s : Stream) :
  (forall t s', UnserializeTransaction tx0 s = Ok t s' ->
                (length (vch s') + 10 <= length (vch s))%nat)
  /\ ((length (vch s) < 10)%nat ->
      exists e s', UnserializeTransaction tx0 s = Throw e s'
                   /\ (e = unknown_optional_data \/ stream_failure e))
  /\ ((length (vch s) < 4)%nat ->
      UnserializeTransaction tx0 s = Throw end_of_data s).
Proof.
  assert (Hmin : forall t s', UnserializeTransaction tx0 s = Ok t s' ->
                   (length (vch s') + 10 <= length (vch s))%nat).
  { intros t s' H.
    apply UnserializeTransaction_accepts in H as (_ & _ & [(Hb & _)|[_ Hb]]);
      rewrite Hb, length_app; pose proof (legacy_bytes_length t);
      rewrite ?extended_bytes_length; lia. }
  split; [exact Hmin|]. split.
  - intros Hshort.
    destruct (UnserializeTransaction tx0 s) as [t s'|e s'] eqn:E.
    + specialize (Hmin t s' eq_refl). lia.
    + exists e, s'. split; [reflexivity|].
      apply (UnserializeTransaction_failures tx0 s e s' E).
  - intros Hshort.
    unfold UnserializeTransaction, UnserializeTransaction_fields,
      Unserialize_int32, ser_readdata32.
    unfold bind, read. cbv beta zeta.
    apply Nat.ltb_lt in Hshort. rewrite Hshort. reflexivity.
Qed.

(** ** Composition and sizes *)

(** X14.  Transactions written one after the other are read back one after
    the other: after serializing [tx1] and then [tx2] to a fresh stream, a
    first decode returns [tx1] and leaves exactly the serialization of
    [tx2], and a second decode returns [tx2] and leaves the stream empty
    (both up to the witness stacks when the stream disallows them). *)
Theorem SerializeTransaction_twice_roundtrip
  (a b tx1 tx2 : CMutableTransaction.t) (s : Stream) :
  tx_ok tx1 = true -> tx_ok tx2 = true ->
  vch s = [] ->
  (fAllowWitness_of s = true ->
   (CMutableTransaction.vin tx1 = [] -> CMutableTransaction.vout tx1 = [])
   /\ (CMutableTransaction.vin tx2 = [] -> CMutableTransaction.vout tx2 = [])) ->
  let seen tx := if fAllowWitness_of s then tx else without_witness tx in
  UnserializeTransaction a (SerializeTransaction tx2 (SerializeTransaction tx1 s))
  = Ok (seen tx1) (SerializeTransaction tx2 s)
  /\ UnserializeTransaction b (SerializeTransaction tx2 s) = Ok (seen tx2) s.
Proof.
  intros Hok1 Hok2 Hs Hshape seen.
  rewrite (fresh_stream s Hs) in *. set (ver := GetVersion s) in *.
  change (fAllowWitness_of (mkStream [] ver)) with (allows ver) in *.
  assert (H2 : forall tx0, UnserializeTransaction tx0
                 (SerializeTransaction tx2 (mkStream [] ver))
               = Ok (seen tx2) (mkStream [] ver)).
  { intros tx0.
    rewrite <- (write_nil (SerializeTransaction tx2 (mkStream [] ver))).
    apply Unserialize_Serialize_frame; [exact Hok2|].
    intros Ha. now apply Hshape. }
  split; [|apply H2].
  set (B2 := vch (SerializeTransaction tx2 (mkStream [] ver))).
  assert (E1 : SerializeTransaction tx2 (SerializeTransaction tx1 (mkStream [] ver))
               = write B2 (SerializeTransaction tx1 (mkStream [] ver))).
  { unfold B2.
    rewrite (SerializeTransaction_bytes tx2 (SerializeTransaction tx1 (mkStream [] ver))).
    rewrite (SerializeTransaction_bytes tx2 (mkStream [] ver)).
    rewrite (SerializeTransaction_bytes tx1 (mkStream [] ver)).
    reflexivity. }
  assert (E2 : SerializeTransaction tx2 (mkStream [] ver) = mkStream B2 ver).
  { unfold B2. rewrite SerializeTransaction_bytes. reflexivity. }
  rewrite E1, E2.
  apply Unserialize_Serialize_frame; [exact Hok1|].
  intros Ha. now apply Hshape.
Qed.

Lemma SerializeTransaction_twice_roundtrip_witness :
  UnserializeTransaction scenario1
    (SerializeTransaction scenario1
       (SerializeTransaction scenario2 (witness_stream [])))
  = Ok scenario2 (SerializeTransaction scenario1 (witness_stream [])).
Proof.
  apply (SerializeTransaction_twice_roundtrip scenario1 scenario1
           scenario2 scenario1 (witness_stream []) eq_refl eq_refl eq_refl).
  intros _. split; intros H; discriminate H.
Defined.

Lemma witnesses_bytes_length (v : list CTxIn.t) :
  (length v <= length (witnesses_bytes v))%nat.
Proof.
  unfold witnesses_bytes. induction v as [|i v IH]; [reflexivity|].
  cbn [map concat length]. rewrite length_app.
  pose proof (vector_bytes_length bytes_bytes
                (CScriptWitness.stack (CTxIn.scriptWitness i))) as H.
  unfold stack_bytes in *. lia.
Qed.

(** X15.  The witness-mode serialization is never shorter than the legacy
    one: it is as long when no input carries witness data, and otherwise
    longer by the two marker bytes and the witness section, which holds at
    least one byte per input. *)
Theorem SerializeTransaction_sizes
  (tx : CMutableTransaction.t) (s1 s2 : Stream) :
  fAllowWitness_of s1 = true ->
  fAllowWitness_of s2 = false ->
  vch s1 = vch s2 ->
  length (vch (SerializeTransaction tx s1))
  = (length (vch (SerializeTransaction tx s2))
     + if CMutableTransaction.HasWitness tx
       then 2 + length (witnesses_bytes (CMutableTransaction.vin tx))
       else 0)%nat
  /\ (length (CMutableTransaction.vin tx)
      <= length (witnesses_bytes (CMutableTransaction.vin tx)))%nat
  /\ (length (vch (SerializeTransaction tx s2))
      <= length (vch (SerializeTransaction tx s1)))%nat.
Proof.
  intros H1 H2 Hv.
  assert (Hsize : length (vch (SerializeTransaction tx s1))
          = (length (vch (SerializeTransaction tx s2))
             + if CMutableTransaction.HasWitness tx
               then 2 + length (witnesses_bytes (CMutableTransaction.vin tx))
               else 0)%nat).
  { rewrite !SerializeTransaction_bytes, H1, H2. cbn [andb].
    unfold write, set_vch. cbn [vch]. rewrite Hv, !length_app.
    destruct (CMutableTransaction.HasWitness tx);
      rewrite ?extended_bytes_length; lia. }
  split; [exact Hsize|]. split; [apply witnesses_bytes_length|].
  rewrite Hsize. lia.
Qed.

Lemma SerializeTransaction_sizes_witness :
  (length (vch (SerializeTransaction scenario2 (legacy_stream [])))
   <= length (vch (SerializeTransaction scenario2 (witness_stream []))))%nat.
Proof.
  destruct (SerializeTransaction_sizes scenario2 (witness_stream [])
              (legacy_stream []) eq_refl eq_refl eq_refl) as (_ & _ & H).
  exact H.
Defined.

(** X16.  A transaction that [IsNull] (no inputs, no outputs) is not a
    coinbase, has no witness, and is written in either mode as ten bytes:
    version, two zero counts, locktime. *)
Theorem CTransaction_IsNull_serialization (t : CTransaction.t) (s : Stream) :
  CTransaction.IsNull t = true ->
  CTransaction.IsCoinBase t = false
  /\ CTransaction.HasWitness t = false
  /\ vch (CTransaction_Serialize t s)
     = vch s ++ le_bytes 4 (CTransaction.nVersion t) ++ [x00; x00]
       ++ le_bytes 4 (CTransaction.nLockTime t)
  /\ length (vch (CTransaction_Serialize t s)) = (length (vch s) + 10)%nat.
Proof.
  unfold CTransaction.IsNull, CTransaction.IsCoinBase, CTransaction.HasWitness,
    CTransaction_Serialize.
  destruct t as [vi vo ver lock h].
  cbn [CTransaction.vin CTransaction.vout CTransaction.nVersion
       CTransaction.nLockTime].
  destruct vi as [|i vi]; [|discriminate]. destruct vo as [|o vo]; [|discriminate].
  intros _.
  change (SerializeTransaction (CTransaction.mk [] [] ver lock h) s)
    with (SerializeTransaction (CMutableTransaction.mk [] [] ver lock) s).
  rewrite SerializeTransaction_bytes.
  change (CMutableTransaction.HasWitness (CMutableTransaction.mk [] [] ver lock))
    with false.
  rewrite andb_false_r. unfold write, set_vch, legacy_bytes. cbn [vch].
  cbn [CMutableTransaction.vin CMutableTransaction.vout
       CMutableTransaction.nVersion CMutableTransaction.nLockTime].
  repeat split.
  rewrite !length_app, !le_bytes_length. reflexivity.
Qed.

Lemma CTransaction_IsNull_serialization_witness :
  CTransaction.IsCoinBase (CTransaction.mk [] [] 2 0 uint256.default) = false.
Proof.
  apply (CTransaction_IsNull_serialization
           (CTransaction.mk [] [] 2 0 uint256.default) (witness_stream [])).
  reflexivity.
Defined.

(** X17.  With witness serialization allowed, no transaction that has
    outputs but no inputs survives the round trip: whatever the decoder makes
    of its serialization on a fresh stream, it is not that transaction. *)
Theorem roundtrip_impossible_without_inputs
  (tx0 tx : CMutableTransaction.t) (s s' : Stream) :
  fAllowWitness_of s = true ->
  vch s = [] ->
  CMutableTransaction.vin tx = [] ->
  CMutableTransaction.vout tx <> [] ->
  UnserializeTransaction tx0 (SerializeTransaction tx s) <> Ok tx s'.
Proof.
  intros Hyes Hfresh Hin Hout H.
  assert (Hw : CMutableTransaction.HasWitness tx = false).
  { unfold CMutableTransaction.HasWitness. now rewrite Hin. }
  assert (Hs : vch (SerializeTransaction tx s) = legacy_bytes tx).
  { rewrite SerializeTransaction_bytes, Hw, andb_false_r.
    unfold write, set_vch. cbn [vch]. now rewrite Hfresh. }
  apply UnserializeTransaction_accepts in H
    as (_ & _ & [(_ & _ & Hshape)|[_ Hb]]).
  - apply Hout, Hshape; [|exact Hin].
    rewrite SerializeTransaction_bytes. exact Hyes.
  - rewrite Hs in Hb. apply (f_equal (@length byte)) in Hb.
    rewrite length_app, extended_bytes_length in Hb. lia.
Qed.

Lemma roundtrip_impossible_without_inputs_witness :
  UnserializeTransaction scenario1
    (SerializeTransaction (CMutableTransaction.mk [] [scenario_txout] 2 0)
       (witness_stream []))
  <> Ok (CMutableTransaction.mk [] [scenario_txout] 2 0) (witness_stream []).
Proof.
  apply (roundtrip_impossible_without_inputs scenario1
           (CMutableTransaction.mk [] [scenario_txout] 2 0)
           (witness_stream []) (witness_stream []) eq_refl eq_refl eq_refl).
  discriminate.
Defined.

(** X18.  A successful decode does not depend on what follows the bytes it
    consumed: with more bytes appended to the stream the decoder returns the
    same transaction and leaves the same remainder followed by the appended
    bytes. *)
Theorem UnserializeTransaction_ignores_trailing_bytes
  (tx0 t : CMutableTransaction.t) (s s' : Stream) (extra : list byte) :
  UnserializeTransaction tx0 s = Ok t s' ->
  UnserializeTransaction tx0 (write extra s) = Ok t (write extra s').
Proof.
  intros H.
  apply UnserializeTransaction_accepts in H as (Hver & Hok & Hshape).
  destruct s as [bs ver], s' as [bs' ver']. cbn [vch GetVersion] in *. subst ver'.
  unfold write, set_vch. cbn [vch GetVersion].
  destruct Hshape as [(Hb & Hw & Hsh)|[Ha Hb]]; rewrite Hb, <- app_assoc.
  - rewrite <- (HasWitness_false_without t Hw) at 2.
    apply Unserialize_legacy_bytes; [exact Hok | exact Hsh].
  - apply Unserialize_extended_bytes; [exact Hok | exact Ha].
Qed.

Lemma UnserializeTransaction_ignores_trailing_bytes_witness :
  UnserializeTransaction scenario1
    (write [x01; x02] (SerializeTransaction scenario2 (witness_stream [])))
  = Ok scenario2 (write [x01; x02] (witness_stream [])).
Proof.
  apply (UnserializeTransaction_ignores_trailing_bytes scenario1 scenario2
           (SerializeTransaction scenario2 (witness_stream []))
           (witness_stream []) [x01; x02]).
  vm_compute. reflexivity.
Defined.

(** * Decoding in place *)

(** ** The caller's object after a decode *)

Lemma Unserialize_witnesses_in_place_result (v : list CTxIn.t) (s : Stream) :
  outcome_result (Unserialize_witnesses_in_place v s) = Unserialize_witnesses v s.
Proof.
  revert s. induction v as [|i v IH]; intros s;
    cbn [Unserialize_witnesses_in_place Unserialize_witnesses]; [reflexivity|].
  unfold bind at 1.
  destruct (CScriptWitness.Unserialize_stack
              (CScriptWitness.stack (CTxIn.scriptWitness i)) s) as [st s1|e s1];
    [|reflexivity].
  unfold bind at 1. rewrite <- IH.
  destruct (Unserialize_witnesses_in_place v s1); reflexivity.
Qed.

(** The in-place decoder and [UnserializeTransaction] agree on everything
    but the object left behind by a failure. *)
Lemma UnserializeTransaction_in_place_result (tx : CMutableTransaction.t) (s : Stream) :
  outcome_result (UnserializeTransaction_in_place tx s) = UnserializeTransaction tx s.
Proof.
  unfold UnserializeTransaction_in_place, UnserializeTransaction,
    UnserializeTransaction_fields, UnserializeTransaction_in_place_witness,
    UnserializeTransaction_in_place_locktime, on_read.
  unfold bind, ret, throw. cbv beta zeta.
  cbn [CMutableTransaction.vin CMutableTransaction.vout
       CMutableTransaction.nVersion CMutableTransaction.nLockTime
       CMutableTransaction.set_vin CMutableTransaction.set_vout
       CMutableTransaction.set_nVersion CMutableTransaction.set_nLockTime].
  repeat (first
            [ progress
                (repeat match goal with
                        | H : ?c = true |- context [if ?c then _ else _] =>
                            rewrite H
                        | H : ?c = false |- context [if ?c then _ else _] =>
                            rewrite H
                        end)
            | rewrite <- Unserialize_witnesses_in_place_result;
              match goal with
              | |- context [Unserialize_witnesses_in_place ?v ?s] =>
                  destruct (Unserialize_witnesses_in_place v s)
              end;
              cbn [outcome_result]
            | next_read_eqn ];
          try reflexivity).
  all: cbn [outcome_result]; congruence.
Qed.

Lemma outcome_result_Ok {S} (o : Outcome S) t s' :
  outcome_result o = Ok t s' -> o = Done t s'.
Proof. destruct o; cbn; congruence. Qed.

Lemma UnserializeTransaction_in_place_short (tx : CMutableTransaction.t) (s : Stream) :
  (length (vch s) < 4)%nat ->
  UnserializeTransaction_in_place tx s = Raised end_of_data tx s.
Proof.
  intros Hshort. unfold UnserializeTransaction_in_place, on_read,
    Unserialize_int32, ser_readdata32, bind, read.
  cbv beta zeta. apply Nat.ltb_lt in Hshort. rewrite Hshort. reflexivity.
Qed.

Lemma UnserializeTransaction_in_place_failure
  (tx tx' : CMutableTransaction.t) (s : Stream) e t s' :
  (4 <= length (vch s))%nat ->
  UnserializeTransaction_in_place tx s = Raised e t s' ->
  CMutableTransaction.nLockTime t = CMutableTransaction.nLockTime tx
  /\ UnserializeTransaction_in_place tx' s
     = Raised e (CMutableTransaction.set_nLockTime t
                   (CMutableTransaction.nLockTime tx')) s'.
Proof.
  intros Hlong.
  unfold UnserializeTransaction_in_place,
    UnserializeTransaction_in_place_witness,
    UnserializeTransaction_in_place_locktime, on_read,
    Unserialize_int32, Unserialize_uint32, ser_readdata32.
  unfold bind, ret. cbv beta zeta.
  cbn [CMutableTransaction.vin CMutableTransaction.vout
       CMutableTransaction.nVersion CMutableTransaction.nLockTime
       CMutableTransaction.set_vin CMutableTransaction.set_vout
       CMutableTransaction.set_nVersion CMutableTransaction.set_nLockTime].
  destruct (read 4 s) as [bs s0|e0 s0] eqn:E.
  2:{ unfold read in E. apply Nat.ltb_ge in Hlong. rewrite Hlong in E.
      discriminate E. }
  repeat (first
            [ match goal with
              | |- context [Unserialize_witnesses_in_place ?v ?s] =>
                  is_var s; destruct (Unserialize_witnesses_in_place v s)
              end
            | next_read ];
          try discriminate).
  all: intros [= <- <- <-]; split; reflexivity.
Qed.




(** ** The unknown-optional-data failure, in the stream's bytes *)

Lemma fields_unknown_flags tx s t flags s' :
  UnserializeTransaction_fields tx s = Ok (t, flags) s' ->
  flags <> 0 ->
  unknown_flags_encoding s s'.
Proof.
  unfold UnserializeTransaction_fields. cbv zeta.
  unfold bind, ret. cbv beta.
  cbn [CMutableTransaction.vin CMutableTransaction.vout
       CMutableTransaction.nVersion CMutableTransaction.nLockTime
       CMutableTransaction.set_vin CMutableTransaction.set_vout
       CMutableTransaction.set_nVersion CMutableTransaction.set_nLockTime].
  repeat next_read_eqn; try discriminate.
  all: intros [= <- <- <-] Hne.
  all: try (now contradiction Hne).
  all: match goal with
       | H : (length ?v =? 0)%nat && _ = true |- _ =>
           apply andb_true_iff in H as [Hlen Hallow];
           apply Nat.eqb_eq in Hlen; destruct v; [|discriminate Hlen]
       end.
  all: repeat match goal with
       | H : negb (?x =? 0) = false |- _ =>
           apply negb_false_iff, Z.eqb_eq in H
       end.
  all: try (exfalso; congruence).
  all: invert_reads.
  all: (split; [exact Hallow|]); (split; [congruence|]).
  - (* bit 0 set: the witness stacks were read *)
    apply andb_true_iff in Heqb1 as [Hbit _].
    match goal with H : forallb fresh_input ?v = true -> _ |- _ =>
      assert (Hf : forallb fresh_input v = true) by assumption;
      specialize (H Hf) end.
    match goal with H : length ?v' = length ?v, Hs : size_ok ?v = true |- _ =>
      assert (Hsz' : size_ok v' = true) by (unfold size_ok in *; now rewrite H)
    end.
    exists a, a1, a4, a3. unfold flags_after_clearing. rewrite Hbit.
    repeat (split; [first [assumption | lia]|]).
    match goal with H : map CTxIn_bytes _ = map CTxIn_bytes _ |- _ =>
      rewrite (vector_bytes_same_map _ _ _ H) end.
    chain_consumed. reflexivity.
  - (* bit 0 clear *)
    rewrite Hallow, andb_true_r in Heqb1.
    match goal with H : forallb fresh_input ?v = true |- _ =>
      destruct (fresh_input_forall v H) as [Hok _] end.
    exists a, a1, a2, a3. unfold flags_after_clearing. rewrite Heqb1.
    repeat (split; [first [assumption | lia]|]).
    chain_consumed. reflexivity.
  - (* flags byte 0 with bit 0 set: impossible *)
    exfalso. subst.
    match goal with H : negb (Z.land 0 1 =? 0) && _ = true |- _ =>
      change (negb (Z.land 0 1 =? 0)) with false in H; discriminate H end.
Qed.

Lemma fields_unknown_flags_bytes tx0 ver flags vi vo rest v :
  allows v = true ->
  in_int32 ver = true -> 0 <= flags < 256 -> flags <> 0 ->
  size_ok vi = true -> forallb CTxIn_ok vi = true ->
  size_ok vo = true -> forallb CTxOut_ok vo = true ->
  exists t,
    UnserializeTransaction_fields tx0
      (mkStream (le_bytes 4 ver ++ [x00] ++ le_bytes 1 flags
                 ++ vector_bytes CTxIn_bytes vi
                 ++ vector_bytes CTxOut_bytes vo
                 ++ (if negb (Z.land flags 1 =? 0)
                     then witnesses_bytes vi else [])
                 ++ rest) v)
    = Ok (t, flags_after_clearing flags) (mkStream rest v).
Proof.
  intros Hyes Hver Hfl Hnz Hvs Hvi Hos Hoo.
  unfold UnserializeTransaction_fields, flags_after_clearing. cbv zeta.
  change (fAllowWitness_of (mkStream _ v)) with (allows v). rewrite Hyes.
  erewrite bind_Ok by (apply Unserialize_int32_le; exact Hver).
  change ([x00] ++ ?l) with (vector_bytes CTxIn_bytes [] ++ l).
  erewrite bind_Ok by (apply (Unserialize_vin_bytes _ []); reflexivity).
  cbn [CMutableTransaction.vin CMutableTransaction.vout
       CMutableTransaction.nVersion CMutableTransaction.nLockTime
       CMutableTransaction.set_vin CMutableTransaction.set_vout
       CMutableTransaction.set_nVersion map length Nat.eqb andb].
  erewrite bind_Ok.
  2:{ unfold Unserialize_uchar.
      erewrite bind_Ok by apply ser_readdata8_le.
      change (2 ^ 8) with 256. rewrite (Z.mod_small flags) by exact Hfl.
      replace (negb (flags =? 0)) with true
        by (symmetry; apply negb_true_iff, Z.eqb_neq; exact Hnz).
      erewrite bind_Ok by (apply Unserialize_vin_bytes; assumption).
      erewrite bind_Ok by (apply Unserialize_vout_bytes; assumption).
      reflexivity. }
  cbv beta iota. rewrite andb_true_r.
  cbn [CMutableTransaction.vin CMutableTransaction.vout
       CMutableTransaction.nVersion CMutableTransaction.nLockTime
       CMutableTransaction.set_vin CMutableTransaction.set_vout
       CMutableTransaction.set_nVersion].
  destruct (negb (Z.land flags 1 =? 0)).
  - erewrite bind_Ok by (apply Unserialize_witnesses_bytes; assumption).
    eexists. reflexivity.
  - eexists. reflexivity.
Qed.

(** C5.  [UnserializeTransaction] raises "Unknown transaction optional data"
    exactly on the streams that allow witnesses and hold a version, the
    empty input count, a flags byte in which a bit other than bit 0 is set
    (bit 0 being cleared when set), and readable input and output
    sequences, followed by the witness stacks when bit 0 is set; the stream
    is then left right after them, the locktime unread.  On every other
    stream the decode completes or fails with one of the stream's own
    failures.  At the check bit 0 of [flags] is always clear. *)
Theorem UnserializeTransaction_unknown_optional_data
  (tx : CMutableTransaction.t) (s : Stream) :
  (forall s',
     UnserializeTransaction tx s = Throw unknown_optional_data s' <->
     unknown_flags_encoding s s')
  /\ (forall s',
        UnserializeTransaction tx s = Throw unknown_optional_data s' <->
        exists tx' flags,
          UnserializeTransaction_fields tx s = Ok (tx', flags) s' /\ flags <> 0)
  /\ (forall tx' flags s',
        UnserializeTransaction_fields tx s = Ok (tx', flags) s' ->
        Z.land flags 1 = 0
        /\ (flags <> 0 ->
            fAllowWitness_of s = true
            /\ exists v f rest,
                 vch s = v ++ x00 :: f :: rest /\ length v = 4%nat
                 /\ flags = if negb (Z.land (Z_of_byte f) 1 =? 0)
                            then Z.lxor (Z_of_byte f) 1 else Z_of_byte f))
  /\ (forall e s',
        UnserializeTransaction tx s = Throw e s' ->
        e = unknown_optional_data \/ stream_failure e).
Proof.
  split; [|split; [|split]].
  - intros s'. split.
    + intros H. apply unknown_optional_data_iff in H as (t & flags & Hf & Hne).
      eapply fields_unknown_flags; eassumption.
    + intros (Hyes & Hv & ver & flags & vi & vo & Hver & Hfl & Hclr & Hvs & Hvi
              & Hos & Hoo & Hb).
      destruct s as [bs v], s' as [rest v']. cbn [vch GetVersion] in *.
      subst v' bs.
      assert (Hnz : flags <> 0).
      { intros ->. now apply Hclr. }
      destruct (fields_unknown_flags_bytes tx ver flags vi vo rest v
                  Hyes Hver Hfl Hnz Hvs Hvi Hos Hoo) as [t Ht].
      unfold UnserializeTransaction. erewrite bind_Ok by exact Ht.
      cbv beta iota.
      replace (negb (flags_after_clearing flags =? 0)) with true
        by (symmetry; apply negb_true_iff, Z.eqb_neq; exact Hclr).
      reflexivity.
  - intros s'. apply unknown_optional_data_iff.
  - intros tx' flags s'. apply fields_flags.
  - intros e s'. apply UnserializeTransaction_failures.
Qed.
